(** * Storage migrations of the search-by-image extension

    A shallow embedding of the two local-storage revisions

      - [src/storage/revisions/local/20250611183700_add_hive.js]
      - [src/storage/revisions/local/20250613183400_add_copyseeker.js]

    and of the migration template of the engine guide (section 4.1),
    together with the properties of the engine-list migration policy. *)

From Stdlib Require Import ZArith String Ascii List Sorted Lia.
From stdpp Require Import base gmap strings list fin_maps.

Local Open Scope string_scope.
Local Open Scope list_scope.
Local Open Scope Z_scope.

(** ** Values and the storage area *)

(** The JSON values the revisions read and write: strings (the storage
    version) and arrays of engine identifiers.  A JavaScript expression that
    may be [undefined] is an [option value], with [None] for [undefined]. *)
Inductive value : Type :=
  | VStr (s : string)
  | VArr (l : list string).

#[global] Instance value_eq_dec : EqDecision value.
Proof. solve_decision. Defined.

(** The only exception the revisions can raise by themselves. *)
Inductive exn : Type :=
  | TypeError.

(** What a JavaScript computation ends with. *)
Inductive completion (A : Type) : Type :=
  | Normal (a : A)
  | Throw (e : exn).
Arguments Normal {A} a.
Arguments Throw {A} e.

(** The world of a revision: the contents of [browser.storage.local] and the
    argument of every [browser.storage.local.set] call made so far, oldest
    first. *)
Record world : Type := World {
  local : gmap string value;
  writes : list (gmap string value)
}.

(** A computation threads the world; a raised exception keeps the world as
    it was when the exception was raised (earlier writes are not undone). *)
Definition js (A : Type) : Type := world → completion A * world.

#[global] Instance js_ret : MRet js := λ A a w, (Normal a, w).

#[global] Instance js_bind : MBind js := λ A B f m w,
  match m w with
  | (Normal a, w') => f a w'
  | (Throw e, w') => (Throw e, w')
  end.

Definition throw {A : Type} (e : exn) : js A := λ w, (Throw e, w).

(** ** The storage interface *)

(** [browser.storage.local.get(keys)]: an object with the stored entries
    among [keys]; a key that is not stored is missing from the object. *)
Definition storage_local_get (keys : list string) : js (gmap string value) :=
  λ w, (Normal (filter (λ kv, kv.1 ∈ keys) (local w)), w).

(** [browser.storage.local.set(changes)]: every entry of [changes] is stored
    in one call, the other entries are kept. *)
Definition storage_local_set (changes : gmap string value) : js unit :=
  λ w, (Normal tt,
        {| local := changes ∪ local w; writes := writes w ++ [changes] |}).

(** ** The JavaScript operations the revisions use *)

(** [obj.key = v].  A property set to [undefined] is not serialised by
    [storage.local.set], and is modelled as a missing property. *)
Definition set_property (key : string) (v : option value)
    (obj : gmap string value) : gmap string value :=
  match v with
  | Some x => <[key := x]> obj
  | None => delete key obj
  end.

(** [v.length]: reading a property of [undefined] raises a TypeError. *)
Definition js_length (v : option value) : js Z :=
  match v with
  | None => throw TypeError
  | Some (VStr s) => mret (Z.of_nat (String.length s))
  | Some (VArr l) => mret (Z.of_nat (length l))
  end.

(** [Array.prototype.indexOf]: the index of the first element equal to [x],
    scanning from index [k]; -1 when there is none. *)
Fixpoint indexOf_from (k : Z) (l : list string) (x : string) : Z :=
  match l with
  | [] => -1
  | y :: l' => if decide (y = x) then k else indexOf_from (k + 1) l' x
  end.

Definition indexOf (l : list string) (x : string) : Z := indexOf_from 0 l x.

(** [v.indexOf(x)], on an array or (with [String.prototype.indexOf]) on a
    string. *)
Definition js_indexOf (v : option value) (x : string) : js Z :=
  match v with
  | None => throw TypeError
  | Some (VStr s) =>
      mret (match String.index 0 x s with
            | Some n => Z.of_nat n
            | None => -1
            end)
  | Some (VArr l) => mret (indexOf l x)
  end.

(** [l.splice(start, 0, item)] on an array: [start] is clamped to the
    length, a negative [start] counts from the end. *)
Definition splice_insert (l : list string) (start : Z) (item : string)
    : list string :=
  let len := Z.of_nat (length l) in
  let actualStart :=
    if start <? 0 then Z.max (len + start) 0 else Z.min start len in
  take (Z.to_nat actualStart) l ++ item :: drop (Z.to_nat actualStart) l.

(** [v.splice(start, 0, item)]; the result is the array after the call.  A
    string has no [splice] method: calling it raises a TypeError. *)
Definition js_splice (v : option value) (start : Z) (item : string)
    : js (option value) :=
  match v with
  | Some (VArr l) => mret (Some (VArr (splice_insert l start item)))
  | _ => throw TypeError
  end.

(** [v.push(item)]; the result is the array after the call. *)
Definition js_push (v : option value) (item : string) : js (option value) :=
  match v with
  | Some (VArr l) => mret (Some (VArr (l ++ [item])))
  | _ => throw TypeError
  end.

(** ** The revisions *)

(** The template of the engine guide (section 4.1): both revisions below are
    instances of it.  [engines] and [disabledEngines] are the arrays read
    from the storage; [splice] and [push] change them in place, which is
    modelled by rebinding the name to the array after the call.  The count
    of enabled engines is read before either array is changed. *)
Section Template.
Variables (revision anchor newEngine : string).

Definition upgrade_template : js unit :=
  let changes : gmap string value := ∅ in
  stored ← storage_local_get ["engines"; "disabledEngines"];
  let engines := stored !! "engines" in
  let disabledEngines := stored !! "disabledEngines" in
  enginesLength ← js_length engines;
  disabledEnginesLength ← js_length disabledEngines;
  let enabledEngineCount := enginesLength - disabledEnginesLength in
  anchorIndex ← js_indexOf engines anchor;
  engines ← (if decide (anchorIndex ≠ -1)
             then js_splice engines (anchorIndex + 1) newEngine
             else js_push engines newEngine);
  let changes := set_property "engines" engines changes in
  disabledEngines ← (if decide (enabledEngineCount >= 8)
                     then js_push disabledEngines newEngine
                     else mret disabledEngines);
  let changes := set_property "disabledEngines" disabledEngines changes in
  let changes := set_property "storageVersion" (Some (VStr revision)) changes in
  storage_local_set changes.
End Template.

(** [20250611183700_add_hive.js] *)
Module AddHive.
Definition message : string := "Add Hive".

Definition revision : string := "20250611183700_add_hive".

Definition upgrade : js unit :=
  let changes : gmap string value := ∅ in
  stored ← storage_local_get ["engines"; "disabledEngines"];
  let engines := stored !! "engines" in
  let disabledEngines := stored !! "disabledEngines" in
  let newEngine := "hive" in
  enginesLength ← js_length engines;
  disabledEnginesLength ← js_length disabledEngines;
  let enabledEngineCount := enginesLength - disabledEnginesLength in
  unsplashIndex ← js_indexOf engines "unsplash";
  engines ← (if decide (unsplashIndex ≠ -1)
             then js_splice engines (unsplashIndex + 1) newEngine
             else js_push engines newEngine);
  let changes := set_property "engines" engines changes in
  disabledEngines ← (if decide (enabledEngineCount >= 8)
                     then js_push disabledEngines newEngine
                     else mret disabledEngines);
  let changes := set_property "disabledEngines" disabledEngines changes in
  let changes := set_property "storageVersion" (Some (VStr revision)) changes in
  storage_local_set changes.
End AddHive.

(** [20250613183400_add_copyseeker.js] *)
Module AddCopyseeker.
Definition message : string := "Add CopySeeker".

Definition revision : string := "20250613183400_add_copyseeker".

Definition upgrade : js unit :=
  let changes : gmap string value := ∅ in
  stored ← storage_local_get ["engines"; "disabledEngines"];
  let engines := stored !! "engines" in
  let disabledEngines := stored !! "disabledEngines" in
  let newEngine := "copyseeker" in
  enginesLength ← js_length engines;
  disabledEnginesLength ← js_length disabledEngines;
  let enabledEngineCount := enginesLength - disabledEnginesLength in
  hiveIndex ← js_indexOf engines "hive";
  engines ← (if decide (hiveIndex ≠ -1)
             then js_splice engines (hiveIndex + 1) newEngine
             else js_push engines newEngine);
  let changes := set_property "engines" engines changes in
  disabledEngines ← (if decide (enabledEngineCount >= 8)
                     then js_push disabledEngines newEngine
                     else mret disabledEngines);
  let changes := set_property "disabledEngines" disabledEngines changes in
  let changes := set_property "storageVersion" (Some (VStr revision)) changes in
  storage_local_set changes.
End AddCopyseeker.

(** A revision as its module exports it ([message], [revision], [upgrade]),
    with the two identifiers its [upgrade] is written around: the engine it
    adds and the engine it looks for. *)
Record migration : Type := Migration {
  message : string;
  revision : string;
  anchor : string;
  newEngine : string;
  upgrade : js unit
}.

Definition add_hive : migration :=
  {| message := AddHive.message; revision := AddHive.revision;
     anchor := "unsplash"; newEngine := "hive";
     upgrade := AddHive.upgrade |}.

Definition add_copyseeker : migration :=
  {| message := AddCopyseeker.message; revision := AddCopyseeker.revision;
     anchor := "hive"; newEngine := "copyseeker";
     upgrade := AddCopyseeker.upgrade |}.

(** The revisions of this development, in registration order. *)
Definition catalog : list migration := [add_hive; add_copyseeker].

(** Applying the [upgrade] procedures of a sequence of revisions one after
    the other; the first exception stops the sequence. *)
Fixpoint apply_upgrades (ms : list migration) : js unit :=
  match ms with
  | [] => mret tt
  | m :: ms' => _ ← upgrade m; apply_upgrades ms'
  end.

(** ** The arrays a revision writes *)

(** The engine list and the list of disabled engines after the body of the
    template ran on the stored arrays [es] and [ds]. *)
Definition engines_after (a n : string) (es : list string) : list string :=
  if decide (indexOf es a ≠ -1)
  then splice_insert es (indexOf es a + 1) n
  else es ++ [n].

Definition enabled_count (es ds : list string) : Z :=
  Z.of_nat (length es) - Z.of_nat (length ds).

Definition disabled_after (n : string) (es ds : list string) : list string :=
  if decide (enabled_count es ds >= 8) then ds ++ [n] else ds.

Definition changes_of (rev a n : string) (es ds : list string)
    : gmap string value :=
  <["storageVersion" := VStr rev]>
    (<["disabledEngines" := VArr (disabled_after n es ds)]>
       (<["engines" := VArr (engines_after a n es)]> ∅)).

(** The three keys a revision writes. *)
Definition written_keys : gset string :=
  {[ "engines"; "disabledEngines"; "storageVersion" ]}.

(** The world after the [set] call of revision [m] on the stored arrays
    [es] and [ds]. *)
Definition world_after (m : migration) (w : world) (es ds : list string)
    : world :=
  let changes :=
    changes_of (revision m) (anchor m) (newEngine m) es ds in
  {| local := changes ∪ local w; writes := writes w ++ [changes] |}.

(** ** The stored version *)

(** The storage with the version entry overwritten by [v]. *)
Definition with_storageVersion (v : value) (w : world) : world :=
  {| local := <["storageVersion" := v]> (local w); writes := writes w |}.

(** ** Revision identifiers *)

(** Revision identifiers follow the scheme of the engine guide,
    [YYYYMMDDHHMMSS_add_enginename]: fourteen decimal digits, an underscore
    and a name.  JavaScript compares strings code unit by code unit, which
    on these ASCII identifiers is [String.compare]. *)
Definition char_code (c : ascii) : Z := Z.of_N (N_of_ascii c).

Definition is_digit (c : ascii) : bool :=
  (48 <=? char_code c) && (char_code c <=? 57).

Fixpoint all_digits (s : string) : bool :=
  match s with
  | EmptyString => true
  | String c s' => is_digit c && all_digits s'
  end.

Definition is_timestamp (s : string) : bool :=
  Nat.eqb (String.length s) 14 && all_digits s.

(** The number a string of digits denotes. *)
Fixpoint timestamp_value (s : string) : Z :=
  match s with
  | EmptyString => 0
  | String c s' =>
      (char_code c - 48) * 10 ^ Z.of_nat (String.length s')
      + timestamp_value s'
  end.

Definition revision_key (timestamp name : string) : string :=
  timestamp +:+ "_" +:+ name.

(** The timestamp a revision identifier starts with. *)
Definition timestamp_of (rev : string) : string := String.substring 0 14 rev.

(** ** Sample storages *)

(** A storage area holding the two arrays and nothing else, with no write
    made yet. *)
Definition state_of (es ds : list string) : world :=
  {| local := <["engines" := VArr es]> (<["disabledEngines" := VArr ds]> ∅);
     writes := [] |}.

Definition eight_engines : list string :=
  ["google"; "bing"; "yandex"; "baidu"; "tineye"; "sogou"; "pinterest";
   "unsplash"].

Definition seven_engines : list string :=
  ["google"; "bing"; "yandex"; "baidu"; "tineye"; "sogou"; "unsplash"].

(** A storage that already lists hive and copyseeker and whose version is
    the copyseeker revision, the later of the two. *)
Definition already_migrated : world :=
  with_storageVersion (VStr AddCopyseeker.revision)
    (state_of ["unsplash"; "hive"; "copyseeker"] []).

(** ** Sequences of revisions on the stored arrays *)

(** The two arrays after the revisions [ms] ran, one after the other, on the
    stored arrays [es] and [ds]. *)
Fixpoint arrays_after (ms : list migration) (es ds : list string)
    : list string * list string :=
  match ms with
  | [] => (es, ds)
  | m :: ms' =>
      arrays_after ms' (engines_after (anchor m) (newEngine m) es)
        (disabled_after (newEngine m) es ds)
  end.

(** ** Strings of the engine scripts *)

(** A character of a string stands for one code unit of the JavaScript
    string, so [String.length] is its [.length].

    [s.includes(needle)]: [needle] occurs in [s]. *)
Fixpoint includes (s needle : string) : bool :=
  if String.prefix needle s then true
  else match s with
       | EmptyString => false
       | String _ s' => includes s' needle
       end.

(** [s.split(sep)] for a separator of one character: the pieces of [s]
    between the occurrences of [sep]; a string without [sep] is its only
    piece. *)
Fixpoint split_on (sep : ascii) (s : string) : list string :=
  match s with
  | EmptyString => [EmptyString]
  | String c s' =>
      if decide (c = sep) then EmptyString :: split_on sep s'
      else match split_on sep s' with
           | seg :: segs => String c seg :: segs
           | [] => [String c EmptyString]
           end
  end.

(** Whether a value that is a string or [undefined] is truthy: [undefined]
    and the empty string are not. *)
Definition truthy (v : option string) : bool :=
  match v with
  | Some s => negb (String.eqb s "")
  | None => false
  end.

(** ** The page an engine script runs in *)

(** What a run of [search] does to the outside, in order: the calls to the
    helpers of [utils/engines] and [utils/common], to the console and to
    the file input, and the assignment to [window.location.href]. *)
Inductive event : Type :=
  | SendReceipt
  | PrepareImageForUpload (engine : string) (newType : option string)
  | FindNode (selector : string) (timeout : Z) (throwError : bool)
  | SetFileInputData (selector : string) (image : string)
  | DispatchEvent (type : string) (bubbles : bool)
  | ConsoleError (msg : string) (err : option string)
  | SetLocationHref (url : string).

#[global] Instance event_eq_dec : EqDecision event.
Proof. solve_decision. Defined.

(** How an awaited promise settles. *)
Inductive settled (A : Type) : Type :=
  | Fulfilled (a : A)
  | Rejected (err : string).
Arguments Fulfilled {A} a.
Arguments Rejected {A} err.

(** The helpers are not part of these files: the page says how each of
    their calls settles.  [findNode] is fulfilled with whether a node was
    found, [prepareImageForUpload] with the prepared image;
    [encodeURIComponent] is the function of the JavaScript library. *)
Record page : Type := Page {
  sendReceipt : settled unit;
  prepareImageForUpload : settled string;
  findNode : settled bool;
  setFileInputData : settled unit;
  encodeURIComponent : string → string
}.

(** The request [search] is called with: the fields it reads. *)
Record request : Type := Request {
  search_assetType : string;
  image_imageUrl : option string
}.

(** An asynchronous function: it extends the list of events and is
    fulfilled or rejected; a rejection skips the rest of the function. *)
Definition task (A : Type) : Type := list event → settled A * list event.

#[global] Instance task_ret : MRet task := λ A a tr, (Fulfilled a, tr).

#[global] Instance task_bind : MBind task := λ A B f m tr,
  match m tr with
  | (Fulfilled a, tr') => f a tr'
  | (Rejected err, tr') => (Rejected err, tr')
  end.

(** A call to the outside: the event is recorded and the call settles as
    given. *)
Definition external {A : Type} (e : event) (r : settled A) : task A :=
  λ tr, (r, tr ++ [e]).

Definition effect (e : event) : task unit := external e (Fulfilled tt).

(** [throw err] *)
Definition reject {A : Type} (err : string) : task A :=
  λ tr, (Rejected err, tr).

(** [try { body } catch (err) { handler }] *)
Definition try_catch {A : Type} (body : task A) (handler : string → task A)
    : task A :=
  λ tr,
    match body tr with
    | (Rejected err, tr') => handler err tr'
    | (Fulfilled a, tr') => (Fulfilled a, tr')
    end.

(** An exception of a synchronous call rejects the asynchronous function
    around it. *)
Definition of_completion {A : Type} (c : completion A) : task A :=
  match c with
  | Normal a => mret a
  | Throw TypeError => reject "TypeError"
  end.

(** The selector of the file input, [input[type="file"]]. *)
Definition fileInputSelector : string :=
  "input[type=" +:+ String "034" ("file" +:+ String "034" "]").

(** ** The engine scripts *)

(** [src/engines/hive.js] *)
Module Hive.
Definition engine : string := "hive".

Definition isProblematicUrl (url : string) : completion bool :=
  if includes url "fbcdn.net" then Normal true
  else if includes url "scontent" then Normal true
  else if includes url "instagram.com" then Normal true
  else if includes url "?" then
    match split_on "?" url !! 1%nat with
    | Some query => Normal (50 <? Z.of_nat (String.length query))
    | None => Throw TypeError
    end
  else Normal false.

Definition search (env : page) (rq : request) : task unit :=
  _ ← external SendReceipt (sendReceipt env);
  shouldUseFileUpload ←
    (if decide (search_assetType rq = "image") then mret true
     else match image_imageUrl rq with
          | Some url =>
              if truthy (Some url) then of_completion (isProblematicUrl url)
              else mret false
          | None => mret false
          end);
  if (shouldUseFileUpload : bool) then
    try_catch
      (preparedImage ←
         external (PrepareImageForUpload engine None)
           (prepareImageForUpload env);
       fileInput ←
         external (FindNode fileInputSelector 10000 false) (findNode env);
       if (fileInput : bool) then
         _ ← external (SetFileInputData fileInputSelector preparedImage)
               (setFileInputData env);
         effect (DispatchEvent "change" true)
       else
         effect (ConsoleError "Hive: No file input found for image upload"
                   None))
      (λ err,
         _ ← effect (ConsoleError "Hive: Error preparing image for upload:"
                       (Some err));
         reject err)
  else
    match image_imageUrl rq with
    | Some url =>
        if truthy (Some url) then
          let analyzeUrl :=
            "https://bizarrus.github.io/Hive/#analyze/"
            +:+ encodeURIComponent env url in
          effect (SetLocationHref analyzeUrl)
        else
          effect (ConsoleError
                    "Hive: No image URL available for URL-based search" None)
    | None =>
        effect (ConsoleError
                  "Hive: No image URL available for URL-based search" None)
    end.
End Hive.

(** The other version of the hive script among the sources: the same
    [isProblematicUrl], and a [search] that asks [prepareImageForUpload]
    for a JPEG. *)
Module HiveJpeg.
Definition engine : string := "hive".

Definition search (env : page) (rq : request) : task unit :=
  _ ← external SendReceipt (sendReceipt env);
  shouldUseFileUpload ←
    (if decide (search_assetType rq = "image") then mret true
     else match image_imageUrl rq with
          | Some url =>
              if truthy (Some url)
              then of_completion (Hive.isProblematicUrl url)
              else mret false
          | None => mret false
          end);
  if (shouldUseFileUpload : bool) then
    try_catch
      (preparedImage ←
         external (PrepareImageForUpload engine (Some "image/jpeg"))
           (prepareImageForUpload env);
       fileInput ←
         external (FindNode fileInputSelector 10000 false) (findNode env);
       if (fileInput : bool) then
         _ ← external (SetFileInputData fileInputSelector preparedImage)
               (setFileInputData env);
         effect (DispatchEvent "change" true)
       else
         effect (ConsoleError "Hive: No file input found for image upload"
                   None))
      (λ err,
         _ ← effect (ConsoleError "Hive: Error preparing image for upload:"
                       (Some err));
         reject err)
  else
    match image_imageUrl rq with
    | Some url =>
        if truthy (Some url) then
          let analyzeUrl :=
            "https://bizarrus.github.io/Hive/#analyze/"
            +:+ encodeURIComponent env url in
          effect (SetLocationHref analyzeUrl)
        else
          effect (ConsoleError
                    "Hive: No image URL available for URL-based search" None)
    | None =>
        effect (ConsoleError
                  "Hive: No image URL available for URL-based search" None)
    end.
End HiveJpeg.

(** [src/engines/copyseeker.js] *)
Module Copyseeker.
Definition engine : string := "copyseeker".

Definition search (env : page) (rq : request) : task unit :=
  _ ← external SendReceipt (sendReceipt env);
  if decide (search_assetType rq = "image") then
    try_catch
      (preparedImage ←
         external (PrepareImageForUpload engine None)
           (prepareImageForUpload env);
       fileInput ←
         external (FindNode fileInputSelector 10000 false) (findNode env);
       if (fileInput : bool) then
         _ ← external (SetFileInputData fileInputSelector preparedImage)
               (setFileInputData env);
         effect (DispatchEvent "change" true)
       else
         effect (ConsoleError
                   "CopySeeker: No file input found for image upload" None))
      (λ err,
         _ ← effect (ConsoleError
                       "CopySeeker: Error preparing image for upload:"
                       (Some err));
         reject err)
  else
    if truthy (image_imageUrl rq) then
      effect (SetLocationHref "https://copyseeker.net/")
    else
      effect (ConsoleError "CopySeeker: No image available for search" None).
End Copyseeker.

(** The events and the result of a run started with no event. *)
Definition events_of {A : Type} (t : task A) : list event := (t []).2.

Definition result_of {A : Type} (t : task A) : settled A := (t []).1.

(** The three scripts. *)
Definition engine_scripts : list (page → request → task unit) :=
  [Hive.search; HiveJpeg.search; Copyseeker.search].

(** An event of the hive script as the JPEG version of the script makes
    it: the call to [prepareImageForUpload] asks for a JPEG. *)
Definition asking_jpeg (e : event) : event :=
  match e with
  | PrepareImageForUpload engine None =>
      PrepareImageForUpload engine (Some "image/jpeg")
  | _ => e
  end.

(** ** The revisions and the template *)

Lemma upgrade_is_template (m : migration) :
  m ∈ catalog → upgrade m = upgrade_template (revision m) (anchor m) (newEngine m).
Proof.
  unfold catalog. rewrite !elem_of_cons, elem_of_nil.
  intros [-> | [-> | []]]; reflexivity.
Qed.

(** ** What the JavaScript operations compute *)

Lemma indexOf_from_notin (k : Z) (l : list string) (x : string) :
  0 <= k → x ∉ l → indexOf_from k l x = -1.
Proof.
  revert k. induction l as [|y l IH]; intros k Hk Hx; simpl; [done|].
  apply not_elem_of_cons in Hx as [Hne Hx].
  destruct (decide (y = x)) as [->|_]; [done|].
  apply IH; [lia|done].
Qed.

Lemma indexOf_from_first (k : Z) (l1 l2 : list string) (x : string) :
  x ∉ l1 → indexOf_from k (l1 ++ x :: l2) x = k + Z.of_nat (length l1).
Proof.
  revert k. induction l1 as [|y l1 IH]; intros k Hx; simpl.
  - destruct (decide (x = x)); [lia|done].
  - apply not_elem_of_cons in Hx as [Hne Hx].
    destruct (decide (y = x)) as [->|_]; [done|].
    rewrite IH by done. lia.
Qed.

Lemma indexOf_notin (l : list string) (x : string) :
  x ∉ l → indexOf l x = -1.
Proof. apply indexOf_from_notin. lia. Qed.

Lemma indexOf_first (l1 l2 : list string) (x : string) :
  x ∉ l1 → indexOf (l1 ++ x :: l2) x = Z.of_nat (length l1).
Proof. intros Hx. unfold indexOf. by rewrite indexOf_from_first. Qed.

(** Every list splits at the first occurrence of [x], when there is one. *)
Lemma first_occurrence (l : list string) (x : string) :
  x ∈ l → ∃ l1 l2, l = l1 ++ x :: l2 ∧ x ∉ l1.
Proof.
  induction l as [|y l IH]; intros Hx; [by apply elem_of_nil in Hx|].
  destruct (decide (y = x)) as [->|Hne].
  - exists [], l. split; [done|]. apply not_elem_of_nil.
  - apply elem_of_cons in Hx as [->|Hx]; [done|].
    destruct (IH Hx) as (l1 & l2 & -> & Hl1).
    exists (y :: l1), l2. split; [done|].
    apply not_elem_of_cons. split; [congruence|done].
Qed.

Lemma indexOf_found (l : list string) (x : string) :
  x ∈ l → indexOf l x ≠ -1.
Proof.
  intros Hx. destruct (first_occurrence l x Hx) as (l1 & l2 & -> & Hl1).
  rewrite indexOf_first by done. lia.
Qed.

Lemma splice_insert_after (l1 l2 : list string) (x item : string) :
  splice_insert (l1 ++ x :: l2) (Z.of_nat (length l1) + 1) item
  = l1 ++ x :: item :: l2.
Proof.
  unfold splice_insert.
  assert ((Z.of_nat (length l1) + 1 <? 0) = false) as -> by (apply Z.ltb_ge; lia).
  rewrite length_app; simpl.
  replace (Z.to_nat (Z.min _ _)) with (length (l1 ++ [x])).
  2:{ rewrite length_app; simpl. lia. }
  replace (l1 ++ x :: l2) with ((l1 ++ [x]) ++ l2) by (by rewrite <- app_assoc).
  rewrite take_app_length, drop_app_length.
  by rewrite <- app_assoc.
Qed.

(** ** What the template computes *)

Lemma engines_after_anchor (a n : string) (l1 l2 : list string) :
  a ∉ l1 → engines_after a n (l1 ++ a :: l2) = l1 ++ a :: n :: l2.
Proof.
  intros Ha. unfold engines_after. rewrite indexOf_first by done.
  destruct (decide _) as [_|Hc]; [|lia].
  apply splice_insert_after.
Qed.

Lemma engines_after_no_anchor (a n : string) (es : list string) :
  a ∉ es → engines_after a n es = es ++ [n].
Proof.
  intros Ha. unfold engines_after. rewrite indexOf_notin by done.
  destruct (decide _) as [Hc|_]; [lia|done].
Qed.

(** The new identifier goes between two parts of the old list. *)
Lemma engines_after_split (a n : string) (es : list string) :
  ∃ l1 l2, es = l1 ++ l2 ∧ engines_after a n es = l1 ++ n :: l2.
Proof.
  destruct (decide (a ∈ es)) as [Hin|Hnot].
  - destruct (first_occurrence es a Hin) as (l1 & l2 & -> & Hl1).
    exists (l1 ++ [a]), l2. rewrite engines_after_anchor by done.
    by rewrite <- !app_assoc.
  - exists es, []. rewrite engines_after_no_anchor by done.
    by rewrite app_nil_r.
Qed.

Lemma stored_lookup (σ : gmap string value) (keys : list string) (k : string) :
  k ∈ keys → filter (λ kv : string * value, kv.1 ∈ keys) σ !! k = σ !! k.
Proof.
  intros Hk. destruct (σ !! k) as [v|] eqn:E.
  - apply map_lookup_filter_Some. by split.
  - apply map_lookup_filter_None. left. done.
Qed.

Lemma stored_engines (σ : gmap string value) :
  filter (λ kv : string * value, kv.1 ∈ ["engines"; "disabledEngines"]) σ
    !! "engines" = σ !! "engines".
Proof. apply stored_lookup, elem_of_cons. by left. Qed.

Lemma stored_disabledEngines (σ : gmap string value) :
  filter (λ kv : string * value, kv.1 ∈ ["engines"; "disabledEngines"]) σ
    !! "disabledEngines" = σ !! "disabledEngines".
Proof. apply stored_lookup. rewrite !elem_of_cons. auto. Qed.

(** The template on a storage holding both arrays: one [set] call with the
    three entries. *)
Lemma upgrade_template_arrays (rev a n : string) (w : world)
    (es ds : list string) :
  local w !! "engines" = Some (VArr es) →
  local w !! "disabledEngines" = Some (VArr ds) →
  upgrade_template rev a n w
  = (Normal tt,
     {| local := changes_of rev a n es ds ∪ local w;
        writes := writes w ++ [changes_of rev a n es ds] |}).
Proof.
  intros He Hd.
  unfold upgrade_template, mbind, js_bind, storage_local_get.
  rewrite stored_engines, stored_disabledEngines. rewrite He, Hd. simpl.
  unfold changes_of, engines_after, disabled_after, enabled_count.
  destruct (decide (indexOf es a ≠ -1)); simpl;
    destruct (decide (_ >= 8)); reflexivity.
Qed.

Lemma changes_of_dom (rev a n : string) (es ds : list string) :
  dom (changes_of rev a n es ds) = written_keys.
Proof.
  unfold changes_of, written_keys. rewrite !dom_insert_L, dom_empty_L.
  set_solver.
Qed.

(** Every outcome of the template: either one [set] call with the three
    keys, the version among them, or a TypeError with the world untouched. *)
Lemma upgrade_template_cases (rev a n : string) (w : world) :
  (∃ changes,
      upgrade_template rev a n w
      = (Normal tt, {| local := changes ∪ local w;
                       writes := writes w ++ [changes] |})
      ∧ dom changes = written_keys
      ∧ changes !! "storageVersion" = Some (VStr rev))
  ∨ upgrade_template rev a n w = (Throw TypeError, w).
Proof.
  unfold upgrade_template, mbind, js_bind, storage_local_get.
  rewrite stored_engines, stored_disabledEngines.
  destruct (local w !! "engines") as [[s|es]|]; simpl; [| |by right].
  - (* a string has neither [splice] nor [push] *)
    destruct (local w !! "disabledEngines") as [[t|ds]|]; simpl;
      [| |by right]; destruct (decide _); by right.
  - destruct (local w !! "disabledEngines") as [[t|ds]|]; simpl; [| |by right].
    + destruct (decide (indexOf es a ≠ -1)); simpl;
        (destruct (decide (_ >= 8)); simpl; [by right|]);
        left; eexists; (split; [reflexivity|]);
        (split; [|done]);
        unfold written_keys; rewrite !dom_insert_L, dom_empty_L; set_solver.
    + left. exists (changes_of rev a n es ds). split; [|split].
      * unfold changes_of, engines_after, disabled_after, enabled_count.
        destruct (decide (indexOf es a ≠ -1)); simpl;
          destruct (decide (_ >= 8)); reflexivity.
      * apply changes_of_dom.
      * done.
Qed.

Lemma upgrade_template_undefined (rev a n : string) (w : world) :
  local w !! "engines" = None ∨ local w !! "disabledEngines" = None →
  upgrade_template rev a n w = (Throw TypeError, w).
Proof.
  intros Hu.
  unfold upgrade_template, mbind, js_bind, storage_local_get.
  rewrite stored_engines, stored_disabledEngines.
  destruct Hu as [-> | ->]; simpl; [done|].
  by destruct (local w !! "engines") as [[s|es]|].
Qed.

(** ** The revisions of the catalog on a storage holding both arrays *)

Lemma upgrade_arrays (m : migration) (w : world) (es ds : list string) :
  m ∈ catalog →
  local w !! "engines" = Some (VArr es) →
  local w !! "disabledEngines" = Some (VArr ds) →
  upgrade m w = (Normal tt, world_after m w es ds).
Proof.
  intros Hm He Hd. rewrite upgrade_is_template by done.
  by apply upgrade_template_arrays.
Qed.

Lemma world_after_engines (m : migration) (w : world) (es ds : list string) :
  local (world_after m w es ds) !! "engines"
  = Some (VArr (engines_after (anchor m) (newEngine m) es)).
Proof.
  unfold world_after, changes_of; simpl.
  apply lookup_union_Some_l. by simplify_map_eq.
Qed.

Lemma world_after_disabledEngines (m : migration) (w : world)
    (es ds : list string) :
  local (world_after m w es ds) !! "disabledEngines"
  = Some (VArr (disabled_after (newEngine m) es ds)).
Proof.
  unfold world_after, changes_of; simpl.
  apply lookup_union_Some_l. by simplify_map_eq.
Qed.

Lemma world_after_storageVersion (m : migration) (w : world)
    (es ds : list string) :
  local (world_after m w es ds) !! "storageVersion"
  = Some (VStr (revision m)).
Proof.
  unfold world_after, changes_of; simpl.
  apply lookup_union_Some_l. by simplify_map_eq.
Qed.

Lemma world_after_other (m : migration) (w : world) (es ds : list string)
    (k : string) :
  k ∉ written_keys → local (world_after m w es ds) !! k = local w !! k.
Proof.
  intros Hk. unfold world_after; simpl.
  apply lookup_union_r. apply not_elem_of_dom. by rewrite changes_of_dom.
Qed.

(** ** Lookups in the sample storages *)

Lemma state_of_engines (es ds : list string) :
  local (state_of es ds) !! "engines" = Some (VArr es).
Proof. unfold state_of; simpl. by simplify_map_eq. Qed.

Lemma state_of_disabledEngines (es ds : list string) :
  local (state_of es ds) !! "disabledEngines" = Some (VArr ds).
Proof. unfold state_of; simpl. by simplify_map_eq. Qed.

Lemma add_hive_in_catalog : add_hive ∈ catalog.
Proof. unfold catalog. apply elem_of_cons. by left. Defined.

Lemma add_copyseeker_in_catalog : add_copyseeker ∈ catalog.
Proof. unfold catalog. rewrite !elem_of_cons. auto. Defined.

(** With eight enabled engines the new engine is disabled, with seven it is
    not. *)
Example add_hive_eight_enabled :
  upgrade add_hive (state_of eight_engines [])
  = (Normal tt, world_after add_hive (state_of eight_engines []) eight_engines [])
  ∧ disabled_after "hive" eight_engines [] = ["hive"].
Proof.
  split; [|reflexivity].
  apply upgrade_arrays;
    [apply add_hive_in_catalog | apply state_of_engines
    | apply state_of_disabledEngines].
Qed.

Example add_hive_seven_enabled :
  upgrade add_hive (state_of seven_engines [])
  = (Normal tt, world_after add_hive (state_of seven_engines []) seven_engines [])
  ∧ disabled_after "hive" seven_engines [] = [].
Proof.
  split; [|reflexivity].
  apply upgrade_arrays;
    [apply add_hive_in_catalog | apply state_of_engines
    | apply state_of_disabledEngines].
Qed.

(** ** Default enablement *)

(** C1.  On every storage holding the [engines] and [disabledEngines]
    arrays, the [upgrade] of a revision succeeds, and the new engine
    identifier is pushed to [disabledEngines] exactly when the number of
    enabled engines before the insertion, [engines.length -
    disabledEngines.length], is at least 8; with 7 or fewer the array is
    stored as it was.  In particular the new engine is among the disabled
    ones when exactly 8 engines were enabled, and nothing is added when
    exactly 7 were. *)
Theorem threshold_enablement (m : migration) (w : world)
    (es ds : list string) :
  m ∈ catalog →
  local w !! "engines" = Some (VArr es) →
  local w !! "disabledEngines" = Some (VArr ds) →
  ∃ w' ds',
    upgrade m w = (Normal tt, w')
    ∧ local w' !! "disabledEngines" = Some (VArr ds')
    ∧ (Z.of_nat (length es) - Z.of_nat (length ds) >= 8
       ↔ ds' = ds ++ [newEngine m])
    ∧ (Z.of_nat (length es) - Z.of_nat (length ds) <= 7 ↔ ds' = ds)
    ∧ (Z.of_nat (length es) - Z.of_nat (length ds) = 8 → newEngine m ∈ ds')
    ∧ (Z.of_nat (length es) - Z.of_nat (length ds) = 7 → ds' = ds).
Proof.
  intros Hm He Hd.
  exists (world_after m w es ds), (disabled_after (newEngine m) es ds).
  split; [by apply upgrade_arrays|].
  split; [apply world_after_disabledEngines|].
  assert (ds ++ [newEngine m] ≠ ds) as Hne.
  { intros Heq. apply (f_equal length) in Heq.
    rewrite length_app in Heq; simpl in Heq. lia. }
  unfold disabled_after, enabled_count.
  destruct (decide (_ >= 8)) as [Hge|Hlt].
  - repeat split; try done; try lia.
    intros _. apply elem_of_app. right. apply elem_of_cons. by left.
  - repeat split; try done; try lia.
Qed.

Lemma threshold_enablement_witness :
  ∃ w' ds',
    upgrade add_hive (state_of eight_engines []) = (Normal tt, w')
    ∧ local w' !! "disabledEngines" = Some (VArr ds')
    ∧ (Z.of_nat (length eight_engines) - Z.of_nat (length (@nil string)) >= 8
       ↔ ds' = [] ++ [newEngine add_hive])
    ∧ (Z.of_nat (length eight_engines) - Z.of_nat (length (@nil string)) <= 7
       ↔ ds' = [])
    ∧ (Z.of_nat (length eight_engines) - Z.of_nat (length (@nil string)) = 8
       → newEngine add_hive ∈ ds')
    ∧ (Z.of_nat (length eight_engines) - Z.of_nat (length (@nil string)) = 7
       → ds' = []).
Proof.
  apply (threshold_enablement add_hive (state_of eight_engines [])
           eight_engines []).
  - apply add_hive_in_catalog.
  - reflexivity.
  - reflexivity.
Defined.

(** ** Position of the new engine *)

(** The two cases of the anchor example, on the list itself. *)
Example copyseeker_after_hive :
  engines_after "hive" "copyseeker" ["a"; "b"; "hive"]
  = ["a"; "b"; "hive"; "copyseeker"].
Proof. reflexivity. Qed.

Example copyseeker_without_hive :
  engines_after "hive" "copyseeker" ["a"; "b"; "c"]
  = ["a"; "b"; "c"; "copyseeker"].
Proof. reflexivity. Qed.

(** C2.  On every stored engine list, the [upgrade] of a revision puts its
    new identifier right after the first occurrence of the identifier it
    looks for, and at the end of the list when that identifier is not in
    the list. *)
Theorem anchor_insertion (m : migration) (w : world) (es ds : list string) :
  m ∈ catalog →
  local w !! "engines" = Some (VArr es) →
  local w !! "disabledEngines" = Some (VArr ds) →
  ∃ w' es',
    upgrade m w = (Normal tt, w')
    ∧ local w' !! "engines" = Some (VArr es')
    ∧ (∀ l1 l2, es = l1 ++ anchor m :: l2 → anchor m ∉ l1 →
         es' = l1 ++ anchor m :: newEngine m :: l2)
    ∧ (anchor m ∈ es →
         ∃ l1 l2, es = l1 ++ anchor m :: l2 ∧ (anchor m ∉ l1)
                  ∧ es' = l1 ++ anchor m :: newEngine m :: l2)
    ∧ (anchor m ∉ es → es' = es ++ [newEngine m]).
Proof.
  intros Hm He Hd.
  exists (world_after m w es ds), (engines_after (anchor m) (newEngine m) es).
  split; [by apply upgrade_arrays|].
  split; [apply world_after_engines|].
  split; [|split].
  - intros l1 l2 -> Hl1. by apply engines_after_anchor.
  - intros Hin. destruct (first_occurrence es _ Hin) as (l1 & l2 & -> & Hl1).
    exists l1, l2. split; [done|]. split; [done|].
    by apply engines_after_anchor.
  - apply engines_after_no_anchor.
Qed.

(** The copyseeker revision on [["a"; "b"; "hive"]]. *)
Lemma anchor_insertion_witness :
  ∃ w' es',
    upgrade add_copyseeker (state_of ["a"; "b"; "hive"] []) = (Normal tt, w')
    ∧ local w' !! "engines" = Some (VArr es')
    ∧ (∀ l1 l2, ["a"; "b"; "hive"] = l1 ++ "hive" :: l2 → "hive" ∉ l1 →
         es' = l1 ++ "hive" :: "copyseeker" :: l2)
    ∧ ("hive" ∈ ["a"; "b"; "hive"] →
         ∃ l1 l2, ["a"; "b"; "hive"] = l1 ++ "hive" :: l2 ∧ ("hive" ∉ l1)
                  ∧ es' = l1 ++ "hive" :: "copyseeker" :: l2)
    ∧ ("hive" ∉ ["a"; "b"; "hive"] → es' = ["a"; "b"; "hive"] ++ ["copyseeker"]).
Proof.
  apply (anchor_insertion add_copyseeker (state_of ["a"; "b"; "hive"] [])
           ["a"; "b"; "hive"] []).
  - apply add_copyseeker_in_catalog.
  - reflexivity.
  - reflexivity.
Defined.

(** The example of the specification, run through [upgrade]: the stored
    list after the copyseeker revision. *)
Example copyseeker_upgrade_after_hive (ds : list string) :
  ∃ w', upgrade add_copyseeker (state_of ["a"; "b"; "hive"] ds) = (Normal tt, w')
        ∧ local w' !! "engines" = Some (VArr ["a"; "b"; "hive"; "copyseeker"]).
Proof.
  eexists. split.
  - apply upgrade_arrays;
      [apply add_copyseeker_in_catalog | apply state_of_engines
      | apply state_of_disabledEngines].
  - apply world_after_engines.
Qed.

Example copyseeker_upgrade_without_hive (es ds : list string) :
  "hive" ∉ es →
  ∃ w', upgrade add_copyseeker (state_of es ds) = (Normal tt, w')
        ∧ local w' !! "engines" = Some (VArr (es ++ ["copyseeker"])).
Proof.
  intros Hes. eexists. split.
  - apply upgrade_arrays;
      [apply add_copyseeker_in_catalog | apply state_of_engines
      | apply state_of_disabledEngines].
  - rewrite world_after_engines. simpl.
    by rewrite engines_after_no_anchor.
Qed.

(** ** The old identifiers are kept in order *)

Lemma filter_other_id (n : string) (l : list string) :
  n ∉ l → filter (λ x, x ≠ n) l = l.
Proof.
  induction l as [|y l IH]; intros Hn; [done|].
  apply not_elem_of_cons in Hn as [Hne Hn].
  rewrite filter_cons_True by congruence. by rewrite IH.
Qed.

(** C10.  When the stored engine list has no occurrence of the new
    identifier, the list a revision stores is one longer, and it is the old
    list with the new identifier put between two of its parts: removing the
    new identifier gives the old list back, so no old identifier is
    removed, renamed or moved past another one. *)
Theorem existing_engines_preserved (m : migration) (w : world)
    (es ds : list string) :
  m ∈ catalog →
  local w !! "engines" = Some (VArr es) →
  local w !! "disabledEngines" = Some (VArr ds) →
  newEngine m ∉ es →
  ∃ w' es',
    upgrade m w = (Normal tt, w')
    ∧ local w' !! "engines" = Some (VArr es')
    ∧ length es' = S (length es)
    ∧ (∃ l1 l2, es = l1 ++ l2 ∧ es' = l1 ++ newEngine m :: l2)
    ∧ filter (λ x, x ≠ newEngine m) es' = es.
Proof.
  intros Hm He Hd Hn.
  exists (world_after m w es ds), (engines_after (anchor m) (newEngine m) es).
  split; [by apply upgrade_arrays|].
  split; [apply world_after_engines|].
  destruct (engines_after_split (anchor m) (newEngine m) es)
    as (l1 & l2 & Hes & ->).
  subst es. split; [|split].
  - rewrite !length_app; simpl. lia.
  - by exists l1, l2.
  - apply not_elem_of_app in Hn as [Hn1 Hn2].
    rewrite filter_app, filter_cons_False by (intros Hc; by apply Hc).
    by rewrite !filter_other_id.
Qed.

Lemma existing_engines_preserved_witness :
  ∃ w' es',
    upgrade add_hive (state_of seven_engines ["bing"]) = (Normal tt, w')
    ∧ local w' !! "engines" = Some (VArr es')
    ∧ length es' = S (length seven_engines)
    ∧ (∃ l1 l2, seven_engines = l1 ++ l2 ∧ es' = l1 ++ "hive" :: l2)
    ∧ filter (λ x, x ≠ "hive") es' = seven_engines.
Proof.
  apply (existing_engines_preserved add_hive
           (state_of seven_engines ["bing"]) seven_engines ["bing"]).
  - apply add_hive_in_catalog.
  - reflexivity.
  - reflexivity.
  - unfold seven_engines; simpl. rewrite !not_elem_of_cons.
    repeat split; try discriminate. apply not_elem_of_nil.
Defined.

(** ** When a revision succeeds *)

(** C4, as the specification states it, fails: on a storage area where the
    [engines] and [disabledEngines] fields are absent, reading [.length] of
    [undefined] raises a TypeError. *)
Lemma upgrade_total_counterexample :
  ¬ (∀ (m : migration) (w : world),
       m ∈ catalog → ∃ w', upgrade m w = (Normal tt, w')).
Proof.
  intros Htotal.
  destruct (Htotal add_hive {| local := ∅; writes := [] |} add_hive_in_catalog)
    as [w' Hw'].
  vm_compute in Hw'. discriminate Hw'.
Qed.

(** C4, amended.  The [upgrade] of a revision succeeds on every storage
    area that holds the [engines] and [disabledEngines] arrays, whatever
    they contain (empty arrays and a list without the looked-up engine
    included); when one of the two fields is absent it raises a TypeError
    and leaves the storage as it was. *)
Theorem upgrade_succeeds_on_arrays (m : migration) (w : world) :
  m ∈ catalog →
  (∀ es ds,
      local w !! "engines" = Some (VArr es) →
      local w !! "disabledEngines" = Some (VArr ds) →
      ∃ w', upgrade m w = (Normal tt, w'))
  ∧ (local w !! "engines" = None ∨ local w !! "disabledEngines" = None →
     upgrade m w = (Throw TypeError, w)).
Proof.
  intros Hm. split.
  - intros es ds He Hd. exists (world_after m w es ds).
    by apply upgrade_arrays.
  - intros Hnone. rewrite upgrade_is_template by done.
    by apply upgrade_template_undefined.
Qed.

(** Empty arrays, hence no anchor either. *)
Lemma upgrade_succeeds_on_arrays_witness :
  ∃ w', upgrade add_hive (state_of [] []) = (Normal tt, w').
Proof.
  apply (proj1 (upgrade_succeeds_on_arrays add_hive (state_of [] [])
                  add_hive_in_catalog) [] []).
  - reflexivity.
  - reflexivity.
Defined.

(** ** One write per revision *)

(** C6.  A revision either makes exactly one [storage.local.set] call, whose
    argument holds the three entries [engines], [disabledEngines] and
    [storageVersion] (the latter set to the revision, the former two to the
    updated arrays), or it raises before any write and the storage is as it
    was: the engine lists and the version are stored together or not at
    all. *)
Theorem upgrade_single_write (m : migration) (w : world) :
  m ∈ catalog →
  (∃ changes,
      upgrade m w = (Normal tt, {| local := changes ∪ local w;
                                   writes := writes w ++ [changes] |})
      ∧ dom changes = written_keys
      ∧ changes !! "storageVersion" = Some (VStr (revision m))
      ∧ (∀ es ds,
           local w !! "engines" = Some (VArr es) →
           local w !! "disabledEngines" = Some (VArr ds) →
           changes !! "engines"
             = Some (VArr (engines_after (anchor m) (newEngine m) es))
           ∧ changes !! "disabledEngines"
             = Some (VArr (disabled_after (newEngine m) es ds))))
  ∨ upgrade m w = (Throw TypeError, w).
Proof.
  intros Hm.
  destruct (local w !! "engines") as [[s|es]|] eqn:He;
    destruct (local w !! "disabledEngines") as [[t|ds]|] eqn:Hd;
    try (rewrite upgrade_is_template by done;
         destruct (upgrade_template_cases (revision m) (anchor m)
                     (newEngine m) w) as [(ch & Hch & Hdom & Hver)|Hthrow];
         [left; exists ch; repeat split; try done; intros; congruence
         |by right]).
  left. exists (changes_of (revision m) (anchor m) (newEngine m) es ds).
  split; [by apply (upgrade_arrays m w es ds)|].
  split; [apply changes_of_dom|]. split; [done|].
  intros es0 ds0 [= <-] [= <-]. unfold changes_of. by simplify_map_eq.
Qed.

Lemma upgrade_single_write_witness :
  (∃ changes,
      upgrade add_copyseeker (state_of ["a"; "b"; "hive"] ["b"])
      = (Normal tt,
         {| local := changes ∪ local (state_of ["a"; "b"; "hive"] ["b"]);
            writes := writes (state_of ["a"; "b"; "hive"] ["b"]) ++ [changes] |})
      ∧ dom changes = written_keys
      ∧ changes !! "storageVersion" = Some (VStr (revision add_copyseeker))
      ∧ (∀ es ds,
           local (state_of ["a"; "b"; "hive"] ["b"]) !! "engines"
             = Some (VArr es) →
           local (state_of ["a"; "b"; "hive"] ["b"]) !! "disabledEngines"
             = Some (VArr ds) →
           changes !! "engines"
             = Some (VArr (engines_after "hive" "copyseeker" es))
           ∧ changes !! "disabledEngines"
             = Some (VArr (disabled_after "copyseeker" es ds))))
  ∨ upgrade add_copyseeker (state_of ["a"; "b"; "hive"] ["b"])
    = (Throw TypeError, state_of ["a"; "b"; "hive"] ["b"]).
Proof.
  apply (upgrade_single_write add_copyseeker
           (state_of ["a"; "b"; "hive"] ["b"])).
  apply add_copyseeker_in_catalog.
Defined.

(** ** The keys a revision leaves alone *)

(** C8.  Whatever the storage holds, the [set] calls of a revision write no
    key other than [engines], [disabledEngines] and [storageVersion], and
    every other stored entry is after the revision what it was before. *)
Theorem upgrade_frame (m : migration) (w : world) :
  m ∈ catalog →
  (∀ k, k ∉ written_keys →
        local (upgrade m w).2 !! k = local w !! k)
  ∧ ∃ new, writes (upgrade m w).2 = writes w ++ new
           ∧ ∀ changes, changes ∈ new → dom changes ⊆ written_keys.
Proof.
  intros Hm. rewrite upgrade_is_template by done.
  destruct (upgrade_template_cases (revision m) (anchor m) (newEngine m) w)
    as [(ch & -> & Hdom & _)| ->]; simpl.
  - split.
    + intros k Hk. apply lookup_union_r, not_elem_of_dom. by rewrite Hdom.
    + exists [ch]. split; [done|].
      intros c Hc. apply list_elem_of_singleton in Hc as ->. by rewrite Hdom.
  - split; [done|]. exists []. split; [by rewrite app_nil_r|].
    intros c Hc. by apply elem_of_nil in Hc.
Qed.

Lemma upgrade_frame_witness :
  (∀ k, k ∉ written_keys →
        local (upgrade add_hive (state_of seven_engines [])).2 !! k
        = local (state_of seven_engines []) !! k)
  ∧ ∃ new, writes (upgrade add_hive (state_of seven_engines [])).2
           = writes (state_of seven_engines []) ++ new
           ∧ ∀ changes, changes ∈ new → dom changes ⊆ written_keys.
Proof.
  apply (upgrade_frame add_hive (state_of seven_engines [])).
  apply add_hive_in_catalog.
Defined.

(** ** No guard inside [upgrade] *)

Lemma union_over_key (changes σ : gmap string value) (k : string)
    (x v : value) :
  changes !! k = Some x → changes ∪ <[k := v]> σ = changes ∪ σ.
Proof.
  intros Hk. apply map_eq. intros j.
  destruct (decide (j = k)) as [->|Hj].
  - by rewrite !(lookup_union_Some_l _ _ _ x).
  - rewrite !lookup_union. by rewrite lookup_insert_ne.
Qed.

(** The stored version is never read: with the version entry overwritten
    the template completes the same way, and when it completes normally the
    final world is the same too. *)
Lemma upgrade_template_ignores_version (rev a n : string) (w : world)
    (v : value) :
  (upgrade_template rev a n (with_storageVersion v w)).1
  = (upgrade_template rev a n w).1
  ∧ ((upgrade_template rev a n w).1 = Normal tt →
     upgrade_template rev a n (with_storageVersion v w)
     = upgrade_template rev a n w).
Proof.
  unfold upgrade_template, mbind, js_bind, storage_local_get,
    with_storageVersion; simpl.
  rewrite !stored_engines, !stored_disabledEngines.
  rewrite !lookup_insert_ne by done.
  destruct (local w !! "engines") as [[s|es]|]; simpl; [| |done].
  - destruct (local w !! "disabledEngines") as [[t|ds]|]; simpl; [| |done];
      destruct (decide _); done.
  - destruct (local w !! "disabledEngines") as [[t|ds]|]; simpl; [| |done];
      destruct (decide (indexOf es a ≠ -1)); simpl;
      destruct (decide (_ >= 8)); simpl; try done;
      (split; [done|]); intros _; unfold storage_local_set; simpl;
      do 2 f_equal; by apply (union_over_key _ _ _ (VStr rev)).
Qed.

Lemma count_occ_inserted (n : string) (l1 l2 : list string) :
  count_occ string_dec (l1 ++ n :: l2) n
  = S (count_occ string_dec (l1 ++ l2) n).
Proof.
  rewrite !count_occ_app, count_occ_cons_eq by done. lia.
Qed.

Lemma engines_after_count (a n : string) (es : list string) :
  count_occ string_dec (engines_after a n es) n
  = S (count_occ string_dec es n).
Proof.
  destruct (engines_after_split a n es) as (l1 & l2 & -> & ->).
  apply count_occ_inserted.
Qed.

(** C9.  The [upgrade] of a revision never reads the stored version: on
    every storage, overwriting the version entry with any value gives the
    same completion, and the same final storage when it completes
    normally.  On a storage holding the two arrays it stores its own
    revision as the version and adds one occurrence of its identifier to
    [engines], whether or not the identifier was there; run once more on
    its own result, it adds a second occurrence and stores its revision
    again. *)
Theorem upgrade_unguarded (m : migration) (w : world) :
  m ∈ catalog →
  (∀ v, (upgrade m (with_storageVersion v w)).1 = (upgrade m w).1
        ∧ ((upgrade m w).1 = Normal tt →
           upgrade m (with_storageVersion v w) = upgrade m w))
  ∧ (∀ es ds,
       local w !! "engines" = Some (VArr es) →
       local w !! "disabledEngines" = Some (VArr ds) →
       ∃ w1 es1,
         upgrade m w = (Normal tt, w1)
         ∧ local w1 !! "storageVersion" = Some (VStr (revision m))
         ∧ local w1 !! "engines" = Some (VArr es1)
         ∧ count_occ string_dec es1 (newEngine m)
           = S (count_occ string_dec es (newEngine m))
         ∧ ∃ w2 es2,
             upgrade m w1 = (Normal tt, w2)
             ∧ local w2 !! "storageVersion" = Some (VStr (revision m))
             ∧ local w2 !! "engines" = Some (VArr es2)
             ∧ count_occ string_dec es2 (newEngine m)
               = S (S (count_occ string_dec es (newEngine m)))).
Proof.
  intros Hm. split.
  - intros v. rewrite upgrade_is_template by done.
    apply upgrade_template_ignores_version.
  - intros es ds He Hd.
    set (es1 := engines_after (anchor m) (newEngine m) es).
    set (ds1 := disabled_after (newEngine m) es ds).
    exists (world_after m w es ds), es1.
    split; [by apply upgrade_arrays|].
    split; [apply world_after_storageVersion|].
    split; [apply world_after_engines|].
    split; [apply engines_after_count|].
    exists (world_after m (world_after m w es ds) es1 ds1),
           (engines_after (anchor m) (newEngine m) es1).
    split.
    { apply upgrade_arrays; [done|apply world_after_engines
                            |apply world_after_disabledEngines]. }
    split; [apply world_after_storageVersion|].
    split; [apply world_after_engines|].
    unfold es1. by rewrite !engines_after_count.
Qed.

(** The hive revision on a storage that is already past it. *)
Lemma upgrade_unguarded_witness :
  ∃ w1 es1,
    upgrade add_hive already_migrated = (Normal tt, w1)
    ∧ local w1 !! "storageVersion" = Some (VStr AddHive.revision)
    ∧ local w1 !! "engines" = Some (VArr es1)
    ∧ count_occ string_dec es1 "hive"
      = S (count_occ string_dec ["unsplash"; "hive"; "copyseeker"] "hive")
    ∧ ∃ w2 es2,
        upgrade add_hive w1 = (Normal tt, w2)
        ∧ local w2 !! "storageVersion" = Some (VStr AddHive.revision)
        ∧ local w2 !! "engines" = Some (VArr es2)
        ∧ count_occ string_dec es2 "hive"
          = S (S (count_occ string_dec
                    ["unsplash"; "hive"; "copyseeker"] "hive")).
Proof.
  apply (proj2 (upgrade_unguarded add_hive already_migrated
                  add_hive_in_catalog)
           ["unsplash"; "hive"; "copyseeker"] []).
  - reflexivity.
  - reflexivity.
Defined.

Example add_hive_twice :
  ∃ w1 w2,
    upgrade add_hive already_migrated = (Normal tt, w1)
    ∧ local w1 !! "engines"
      = Some (VArr ["unsplash"; "hive"; "hive"; "copyseeker"])
    ∧ local w1 !! "storageVersion" = Some (VStr "20250611183700_add_hive")
    ∧ upgrade add_hive w1 = (Normal tt, w2)
    ∧ local w2 !! "engines"
      = Some (VArr ["unsplash"; "hive"; "hive"; "hive"; "copyseeker"]).
Proof.
  eexists _, _. split; [vm_compute; reflexivity|].
  split; [vm_compute; reflexivity|].
  split; [vm_compute; reflexivity|].
  split; vm_compute; reflexivity.
Qed.

(** ** Sequences of revisions *)

Lemma apply_upgrades_cons (m : migration) (ms : list migration) (w w' : world) :
  upgrade m w = (Normal tt, w') →
  apply_upgrades (m :: ms) w = apply_upgrades ms w'.
Proof. intros Hu. simpl. unfold mbind, js_bind. by rewrite Hu. Qed.

Lemma engines_after_elem (a n x : string) (es : list string) :
  x ∈ engines_after a n es ↔ x = n ∨ x ∈ es.
Proof.
  destruct (engines_after_split a n es) as (l1 & l2 & -> & ->).
  rewrite !elem_of_app, elem_of_cons. tauto.
Qed.

Lemma disabled_after_elem (n x : string) (es ds : list string) :
  x ∈ disabled_after n es ds → x = n ∨ x ∈ ds.
Proof.
  unfold disabled_after. destruct (decide _); [|by right].
  rewrite elem_of_app, elem_of_cons, elem_of_nil. tauto.
Qed.

Lemma engines_after_NoDup (a n : string) (es : list string) :
  NoDup es → n ∉ es → NoDup (engines_after a n es).
Proof.
  destruct (engines_after_split a n es) as (l1 & l2 & -> & ->).
  rewrite !NoDup_app, NoDup_cons, not_elem_of_app.
  intros (H1 & H12 & H2) [Hn1 Hn2]. split; [done|]. split; [|done].
  intros x Hx. apply not_elem_of_cons. split; [|by apply H12].
  intros ->. done.
Qed.

(** C3, as the specification states it, fails: the hive revision on the
    duplicate-free list [["hive"]] stores [["hive"; "hive"]]. *)
Lemma no_duplicate_counterexample :
  ¬ (∀ (ms : list migration) (w : world) (es ds : list string),
       (∀ m, m ∈ ms → m ∈ catalog) →
       local w !! "engines" = Some (VArr es) →
       local w !! "disabledEngines" = Some (VArr ds) →
       NoDup es →
       ∃ w' es', apply_upgrades ms w = (Normal tt, w')
                 ∧ local w' !! "engines" = Some (VArr es')
                 ∧ NoDup es').
Proof.
  intros Hclaim.
  destruct (Hclaim [add_hive] (state_of ["hive"] []) ["hive"] [])
    as (w' & es' & Hrun & Hes' & Hnodup).
  - intros m Hm. apply list_elem_of_singleton in Hm as ->.
    apply add_hive_in_catalog.
  - reflexivity.
  - reflexivity.
  - apply NoDup_singleton.
  - vm_compute in Hrun. injection Hrun as <-.
    vm_compute in Hes'. injection Hes' as <-.
    apply NoDup_cons in Hnodup as [Hin _].
    apply Hin, elem_of_cons. by left.
Qed.

(** C3, amended.  From a storage whose engine list has no duplicate and
    none of the identifiers the revisions add, applying revisions of the
    catalog that add pairwise different identifiers (so no revision twice)
    succeeds and stores an engine list with no duplicate, whether each
    revision finds the engine it looks for or appends at the end. *)
Theorem engines_stay_unique (ms : list migration) (w : world)
    (es ds : list string) :
  (∀ m, m ∈ ms → m ∈ catalog) →
  local w !! "engines" = Some (VArr es) →
  local w !! "disabledEngines" = Some (VArr ds) →
  NoDup es →
  NoDup (newEngine <$> ms) →
  (∀ m, m ∈ ms → newEngine m ∉ es) →
  ∃ w' es', apply_upgrades ms w = (Normal tt, w')
            ∧ local w' !! "engines" = Some (VArr es')
            ∧ NoDup es'.
Proof.
  revert w es ds.
  induction ms as [|m ms IH]; intros w es ds Hcat He Hd Hes Hnew Hfresh.
  - exists w, es. by repeat split.
  - rewrite fmap_cons in Hnew. apply NoDup_cons in Hnew as [Hm Hnew].
    assert (m ∈ catalog) as Hmc by (apply Hcat, elem_of_cons; by left).
    rewrite (apply_upgrades_cons m ms w (world_after m w es ds))
      by (by apply upgrade_arrays).
    apply (IH _ (engines_after (anchor m) (newEngine m) es)
                (disabled_after (newEngine m) es ds)).
    + intros m' Hm'. apply Hcat, elem_of_cons. by right.
    + apply world_after_engines.
    + apply world_after_disabledEngines.
    + apply engines_after_NoDup; [done|].
      apply Hfresh, elem_of_cons. by left.
    + done.
    + intros m' Hm'. rewrite engines_after_elem. intros [Heq|Hin].
      * apply Hm. rewrite <- Heq. by apply list_elem_of_fmap_2.
      * revert Hin. apply Hfresh, elem_of_cons. by right.
Qed.

(** The whole catalog, in order: the hive revision finds no unsplash and
    appends, the copyseeker revision then finds hive. *)
Lemma engines_stay_unique_witness :
  ∃ w' es', apply_upgrades catalog (state_of ["google"; "bing"] ["bing"])
            = (Normal tt, w')
            ∧ local w' !! "engines" = Some (VArr es')
            ∧ NoDup es'.
Proof.
  apply (engines_stay_unique catalog (state_of ["google"; "bing"] ["bing"])
           ["google"; "bing"] ["bing"]).
  - intros m Hm. exact Hm.
  - reflexivity.
  - reflexivity.
  - apply (NoDup_ListNoDup ["google"; "bing"]).
    repeat constructor; simpl; intuition discriminate.
  - apply (NoDup_ListNoDup (newEngine <$> catalog)).
    repeat constructor; simpl; intuition discriminate.
  - intros m Hm. unfold catalog in Hm.
    rewrite !elem_of_cons, elem_of_nil in Hm.
    destruct Hm as [-> | [-> | []]]; simpl;
      rewrite !not_elem_of_cons; repeat split; try discriminate;
      apply not_elem_of_nil.
Defined.

(** ** Disabled engines are engines *)

(** C5.  From a storage whose [disabledEngines] array only holds
    identifiers of its [engines] array, applying any sequence of revisions
    of the catalog (the catalog in its order among them) succeeds and ends
    in a storage with the same property: the identifier a revision pushes
    to [disabledEngines] is in the engine list it stores. *)
Theorem disabled_subset_invariant (ms : list migration) (w : world)
    (es ds : list string) :
  (∀ m, m ∈ ms → m ∈ catalog) →
  local w !! "engines" = Some (VArr es) →
  local w !! "disabledEngines" = Some (VArr ds) →
  ds ⊆ es →
  ∃ w' es' ds',
    apply_upgrades ms w = (Normal tt, w')
    ∧ local w' !! "engines" = Some (VArr es')
    ∧ local w' !! "disabledEngines" = Some (VArr ds')
    ∧ ds' ⊆ es'.
Proof.
  revert w es ds.
  induction ms as [|m ms IH]; intros w es ds Hcat He Hd Hsub.
  - exists w, es, ds. by repeat split.
  - assert (m ∈ catalog) as Hmc by (apply Hcat, elem_of_cons; by left).
    rewrite (apply_upgrades_cons m ms w (world_after m w es ds))
      by (by apply upgrade_arrays).
    apply (IH _ (engines_after (anchor m) (newEngine m) es)
                (disabled_after (newEngine m) es ds)).
    + intros m' Hm'. apply Hcat, elem_of_cons. by right.
    + apply world_after_engines.
    + apply world_after_disabledEngines.
    + intros x Hx. apply engines_after_elem.
      apply disabled_after_elem in Hx as [->|Hx]; [by left|].
      right. by apply Hsub.
Qed.

Lemma disabled_subset_invariant_witness :
  ∃ w' es' ds',
    apply_upgrades catalog (state_of eight_engines []) = (Normal tt, w')
    ∧ local w' !! "engines" = Some (VArr es')
    ∧ local w' !! "disabledEngines" = Some (VArr ds')
    ∧ ds' ⊆ es'.
Proof.
  apply (disabled_subset_invariant catalog (state_of eight_engines [])
           eight_engines []).
  - intros m Hm. exact Hm.
  - reflexivity.
  - reflexivity.
  - intros x Hx. by apply elem_of_nil in Hx.
Defined.

Example catalog_on_eight_engines :
  ∃ w', apply_upgrades catalog (state_of eight_engines []) = (Normal tt, w')
        ∧ local w' !! "engines"
          = Some (VArr ["google"; "bing"; "yandex"; "baidu"; "tineye";
                        "sogou"; "pinterest"; "unsplash"; "hive";
                        "copyseeker"])
        ∧ local w' !! "disabledEngines" = Some (VArr ["hive"; "copyseeker"])
        ∧ local w' !! "storageVersion"
          = Some (VStr "20250613183400_add_copyseeker")
        ∧ length (writes w') = 2%nat.
Proof.
  eexists. split; [vm_compute; reflexivity|].
  repeat split; vm_compute; reflexivity.
Qed.

(** ** The order of the revisions *)

Lemma add_hive_key :
  revision add_hive = revision_key "20250611183700" "add_hive".
Proof. reflexivity. Qed.

Lemma add_copyseeker_key :
  revision add_copyseeker = revision_key "20250613183400" "add_copyseeker".
Proof. reflexivity. Qed.

Lemma timestamp_value_bound (s : string) :
  all_digits s = true →
  0 <= timestamp_value s < 10 ^ Z.of_nat (String.length s).
Proof.
  induction s as [|c s IH];
    cbn [all_digits timestamp_value String.length]; [simpl; lia|].
  intros [Hc Hs]%andb_true_iff. specialize (IH Hs).
  unfold is_digit in Hc. apply andb_true_iff in Hc as [Hlo Hhi].
  apply Z.leb_le in Hlo, Hhi.
  rewrite Nat2Z.inj_succ, Z.pow_succ_r by lia.
  nia.
Qed.

(** On digit strings of the same length the lexical order is the numeric
    order, whatever follows the digits. *)
Lemma digits_compare (a b x y : string) :
  String.length a = String.length b →
  all_digits a = true → all_digits b = true →
  timestamp_value a < timestamp_value b →
  String.compare (a +:+ x) (b +:+ y) = Lt.
Proof.
  revert b. induction a as [|c a IH]; intros [|d b] Hlen Ha Hb Hlt;
    cbn [all_digits timestamp_value String.length String.app
         String.compare] in *; try lia; try discriminate.
  apply andb_true_iff in Ha as [Hc Ha]. apply andb_true_iff in Hb as [Hd Hb].
  injection Hlen as Hlen.
  pose proof (timestamp_value_bound a Ha) as Hba.
  pose proof (timestamp_value_bound b Hb) as Hbb.
  rewrite Hlen in Hlt, Hba.
  change (String c a +:+ x) with (String c (a +:+ x)).
  change (String d b +:+ y) with (String d (b +:+ y)).
  cbn [String.compare].
  unfold Ascii.compare, char_code in *.
  destruct (N.compare_spec (N_of_ascii c) (N_of_ascii d)) as [Heq|Hlt'|Hgt].
  - apply IH; try done. rewrite Heq in Hlt. lia.
  - done.
  - exfalso. nia.
Qed.

Lemma revision_key_lt (t1 t2 n1 n2 : string) :
  is_timestamp t1 = true → is_timestamp t2 = true →
  timestamp_value t1 < timestamp_value t2 →
  String.ltb (revision_key t1 n1) (revision_key t2 n2) = true.
Proof.
  unfold is_timestamp. intros [H1 D1]%andb_true_iff [H2 D2]%andb_true_iff Hlt.
  apply Nat.eqb_eq in H1, H2.
  unfold String.ltb, revision_key.
  rewrite (digits_compare t1 t2); [done|congruence|done|done|done].
Qed.

(** C7.  Under lexical comparison the revision of the hive migration is
    strictly below the revision of the copyseeker migration, and the
    revisions of the catalog are strictly increasing in registration
    order.  Under the identifier scheme the lexical order is the order of
    the timestamps, so a revision appended with a timestamp later than
    those of all revisions of the catalog is strictly above every one of
    them. *)
Theorem revisions_increasing :
  String.ltb AddHive.revision AddCopyseeker.revision = true
  ∧ StronglySorted (λ r1 r2, String.ltb r1 r2 = true) (revision <$> catalog)
  ∧ (∀ t1 t2 n1 n2,
       is_timestamp t1 = true → is_timestamp t2 = true →
       timestamp_value t1 < timestamp_value t2 →
       String.ltb (revision_key t1 n1) (revision_key t2 n2) = true)
  ∧ (∀ timestamp name,
       is_timestamp timestamp = true →
       (∀ m, m ∈ catalog →
             timestamp_value (timestamp_of (revision m))
             < timestamp_value timestamp) →
       ∀ m, m ∈ catalog →
            String.ltb (revision m) (revision_key timestamp name) = true).
Proof.
  split; [reflexivity|]. split; [|split].
  - repeat constructor.
  - apply revision_key_lt.
  - intros ts name Hts Hlater m Hm. specialize (Hlater m Hm).
    unfold catalog in Hm. rewrite !elem_of_cons, elem_of_nil in Hm.
    destruct Hm as [-> | [-> | []]].
    + rewrite add_hive_key. by apply revision_key_lt.
    + rewrite add_copyseeker_key. by apply revision_key_lt.
Qed.

Lemma revisions_increasing_witness :
  String.ltb (revision add_copyseeker)
    (revision_key "20260102030405" "add_lenso") = true.
Proof.
  apply (proj2 (proj2 (proj2 revisions_increasing))
           "20260102030405" "add_lenso").
  - reflexivity.
  - intros m Hm. unfold catalog in Hm.
    rewrite !elem_of_cons, elem_of_nil in Hm.
    destruct Hm as [-> | [-> | []]]; reflexivity.
  - apply add_copyseeker_in_catalog.
Defined.

(** ** More on sequences of revisions *)

Lemma engines_after_length (a n : string) (es : list string) :
  length (engines_after a n es) = S (length es).
Proof.
  destruct (engines_after_split a n es) as (l1 & l2 & -> & ->).
  rewrite !length_app; simpl. lia.
Qed.

(** A run of revisions of the catalog on a storage holding both arrays:
    what it stores, how many [set] calls it makes, and what it leaves. *)
Lemma apply_upgrades_arrays (ms : list migration) (w : world)
    (es ds : list string) :
  (∀ m, m ∈ ms → m ∈ catalog) →
  local w !! "engines" = Some (VArr es) →
  local w !! "disabledEngines" = Some (VArr ds) →
  ∃ w',
    apply_upgrades ms w = (Normal tt, w')
    ∧ local w' !! "engines" = Some (VArr (arrays_after ms es ds).1)
    ∧ local w' !! "disabledEngines" = Some (VArr (arrays_after ms es ds).2)
    ∧ length (writes w') = (length (writes w) + length ms)%nat
    ∧ local w' !! "storageVersion"
      = match last ms with
        | Some m => Some (VStr (revision m))
        | None => local w !! "storageVersion"
        end
    ∧ (∀ k, k ∉ written_keys → local w' !! k = local w !! k).
Proof.
  revert w es ds. induction ms as [|m ms IH]; intros w es ds Hcat He Hd.
  - exists w. simpl. repeat split; try done.
  - assert (m ∈ catalog) as Hmc by (apply Hcat, elem_of_cons; by left).
    destruct (IH (world_after m w es ds)
                (engines_after (anchor m) (newEngine m) es)
                (disabled_after (newEngine m) es ds))
      as (w' & Hrun & He' & Hd' & Hlen & Hver & Hframe).
    { intros m' Hm'. apply Hcat, elem_of_cons. by right. }
    { apply world_after_engines. }
    { apply world_after_disabledEngines. }
    exists w'.
    rewrite (apply_upgrades_cons m ms w (world_after m w es ds))
      by (by apply upgrade_arrays).
    split; [done|]. split; [done|]. split; [done|]. split; [|split].
    + rewrite Hlen. unfold world_after; simpl. rewrite length_app; simpl. lia.
    + rewrite Hver. destruct ms as [|m' ms'].
      * apply world_after_storageVersion.
      * rewrite last_cons_cons.
        destruct (last (m' :: ms')) eqn:Hlast; [done|].
        by apply last_None in Hlast.
    + intros k Hk. rewrite Hframe by done. by apply world_after_other.
Qed.

Lemma arrays_after_enabled (ms : list migration) (es ds : list string) :
  enabled_count (arrays_after ms es ds).1 (arrays_after ms es ds).2
  = if decide (enabled_count es ds >= 8) then enabled_count es ds
    else Z.min 8 (enabled_count es ds + Z.of_nat (length ms)).
Proof.
  revert es ds. induction ms as [|m ms IH]; intros es ds.
  - simpl. destruct (decide _); lia.
  - cbn [arrays_after length]. rewrite IH.
    assert (enabled_count (engines_after (anchor m) (newEngine m) es)
              (disabled_after (newEngine m) es ds)
            = if decide (enabled_count es ds >= 8) then enabled_count es ds
              else enabled_count es ds + 1) as ->.
    { unfold disabled_after, enabled_count.
      rewrite engines_after_length.
      destruct (decide _); rewrite ?length_app; simpl; lia. }
    destruct (decide (enabled_count es ds >= 8)).
    + destruct (decide _); lia.
    + destruct (decide _); lia.
Qed.

Lemma arrays_after_grow (ms : list migration) (es ds : list string) :
  es `sublist_of` (arrays_after ms es ds).1
  ∧ ds `prefix_of` (arrays_after ms es ds).2
  ∧ length (arrays_after ms es ds).1 = (length es + length ms)%nat.
Proof.
  revert es ds. induction ms as [|m ms IH]; intros es ds.
  - simpl. repeat split; try done.
  - cbn [arrays_after length].
    destruct (IH (engines_after (anchor m) (newEngine m) es)
                (disabled_after (newEngine m) es ds)) as (Hs & Hp & Hl).
    split; [|split].
    + etrans; [|exact Hs].
      destruct (engines_after_split (anchor m) (newEngine m) es)
        as (l1 & l2 & -> & ->).
      apply sublist_app; [done|]. by apply sublist_cons.
    + etrans; [|exact Hp]. unfold disabled_after.
      destruct (decide _); [|done]. by apply prefix_app_r.
    + rewrite Hl, engines_after_length. lia.
Qed.

Lemma engines_after_head (a n x : string) (es : list string) :
  head es = Some x → head (engines_after a n es) = Some x.
Proof.
  intros Hx. destruct es as [|y es]; [done|]. simpl in Hx.
  injection Hx as ->.
  destruct (decide (a ∈ x :: es)) as [Hin|Hnot].
  - destruct (first_occurrence _ _ Hin) as (l1 & l2 & Heq & Hl1).
    rewrite Heq, engines_after_anchor by done.
    destruct l1 as [|z l1]; simpl in *; congruence.
  - by rewrite engines_after_no_anchor.
Qed.

Lemma arrays_after_head (ms : list migration) (x : string)
    (es ds : list string) :
  head es = Some x → head (arrays_after ms es ds).1 = Some x.
Proof.
  revert es ds. induction ms as [|m ms IH]; intros es ds Hx; [done|].
  cbn [arrays_after]. by apply IH, engines_after_head.
Qed.

(** X1.  A non-empty run of catalog revisions on a storage holding both
    arrays succeeds, makes exactly one [set] call per revision, leaves the
    revision of the last one applied as the stored version, and changes no
    entry other than the three written keys. *)
Theorem run_version_and_writes (ms : list migration) (w : world)
    (es ds : list string) :
  (∀ m, m ∈ ms → m ∈ catalog) →
  local w !! "engines" = Some (VArr es) →
  local w !! "disabledEngines" = Some (VArr ds) →
  ms ≠ [] →
  ∃ w' m_last,
    apply_upgrades ms w = (Normal tt, w')
    ∧ last ms = Some m_last
    ∧ local w' !! "storageVersion" = Some (VStr (revision m_last))
    ∧ length (writes w') = (length (writes w) + length ms)%nat
    ∧ (∀ k, k ∉ written_keys → local w' !! k = local w !! k).
Proof.
  intros Hcat He Hd Hne.
  destruct (apply_upgrades_arrays ms w es ds Hcat He Hd)
    as (w' & Hrun & _ & _ & Hlen & Hver & Hframe).
  apply last_is_Some in Hne as [m_last Hlast].
  exists w', m_last. rewrite Hlast in Hver. by repeat split.
Qed.

Lemma run_version_and_writes_witness :
  ∃ w' m_last,
    apply_upgrades catalog (state_of seven_engines []) = (Normal tt, w')
    ∧ last catalog = Some m_last
    ∧ local w' !! "storageVersion" = Some (VStr (revision m_last))
    ∧ length (writes w')
      = (length (writes (state_of seven_engines [])) + length catalog)%nat
    ∧ (∀ k, k ∉ written_keys →
            local w' !! k = local (state_of seven_engines []) !! k).
Proof.
  apply (run_version_and_writes catalog (state_of seven_engines [])
           seven_engines []).
  - intros m Hm. exact Hm.
  - reflexivity.
  - reflexivity.
  - discriminate.
Defined.

(** X2.  Revisions never raise the number of enabled engines above 8: along
    a run of catalog revisions a count that is already 8 or more stays what
    it is, and a smaller count grows by one per revision until it reaches
    8. *)
Theorem run_enabled_count (ms : list migration) (w : world)
    (es ds : list string) :
  (∀ m, m ∈ ms → m ∈ catalog) →
  local w !! "engines" = Some (VArr es) →
  local w !! "disabledEngines" = Some (VArr ds) →
  ∃ w' es' ds',
    apply_upgrades ms w = (Normal tt, w')
    ∧ local w' !! "engines" = Some (VArr es')
    ∧ local w' !! "disabledEngines" = Some (VArr ds')
    ∧ Z.of_nat (length es') - Z.of_nat (length ds')
      = if decide (Z.of_nat (length es) - Z.of_nat (length ds) >= 8)
        then Z.of_nat (length es) - Z.of_nat (length ds)
        else Z.min 8 (Z.of_nat (length es) - Z.of_nat (length ds)
                      + Z.of_nat (length ms)).
Proof.
  intros Hcat He Hd.
  destruct (apply_upgrades_arrays ms w es ds Hcat He Hd)
    as (w' & Hrun & He' & Hd' & _).
  exists w', (arrays_after ms es ds).1, (arrays_after ms es ds).2.
  repeat split; try done. apply arrays_after_enabled.
Qed.

Lemma run_enabled_count_witness :
  ∃ w' es' ds',
    apply_upgrades catalog (state_of seven_engines []) = (Normal tt, w')
    ∧ local w' !! "engines" = Some (VArr es')
    ∧ local w' !! "disabledEngines" = Some (VArr ds')
    ∧ Z.of_nat (length es') - Z.of_nat (length ds')
      = if decide (Z.of_nat (length seven_engines)
                   - Z.of_nat (length (@nil string)) >= 8)
        then Z.of_nat (length seven_engines) - Z.of_nat (length (@nil string))
        else Z.min 8 (Z.of_nat (length seven_engines)
                      - Z.of_nat (length (@nil string))
                      + Z.of_nat (length catalog)).
Proof.
  apply (run_enabled_count catalog (state_of seven_engines [])
           seven_engines []).
  - intros m Hm. exact Hm.
  - reflexivity.
  - reflexivity.
Defined.

(** X3.  Along a run of catalog revisions nothing is taken out of the two
    arrays and nothing in them is reordered: the old engine list is a
    sublist of the new one, which is longer by the number of revisions,
    and the old list of disabled engines is a prefix of the new one. *)
Theorem run_arrays_grow (ms : list migration) (w : world)
    (es ds : list string) :
  (∀ m, m ∈ ms → m ∈ catalog) →
  local w !! "engines" = Some (VArr es) →
  local w !! "disabledEngines" = Some (VArr ds) →
  ∃ w' es' ds',
    apply_upgrades ms w = (Normal tt, w')
    ∧ local w' !! "engines" = Some (VArr es')
    ∧ local w' !! "disabledEngines" = Some (VArr ds')
    ∧ es `sublist_of` es'
    ∧ ds `prefix_of` ds'
    ∧ length es' = (length es + length ms)%nat.
Proof.
  intros Hcat He Hd.
  destruct (apply_upgrades_arrays ms w es ds Hcat He Hd)
    as (w' & Hrun & He' & Hd' & _).
  destruct (arrays_after_grow ms es ds) as (Hs & Hp & Hl).
  exists w', (arrays_after ms es ds).1, (arrays_after ms es ds).2.
  by repeat split.
Qed.

Lemma run_arrays_grow_witness :
  ∃ w' es' ds',
    apply_upgrades catalog (state_of eight_engines ["bing"]) = (Normal tt, w')
    ∧ local w' !! "engines" = Some (VArr es')
    ∧ local w' !! "disabledEngines" = Some (VArr ds')
    ∧ eight_engines `sublist_of` es'
    ∧ ["bing"] `prefix_of` ds'
    ∧ length es' = (length eight_engines + length catalog)%nat.
Proof.
  apply (run_arrays_grow catalog (state_of eight_engines ["bing"])
           eight_engines ["bing"]).
  - intros m Hm. exact Hm.
  - reflexivity.
  - reflexivity.
Defined.

(** X4.  A revision never puts its engine in front of a non-empty list:
    along a run of catalog revisions the first engine of the list stays
    the first. *)
Theorem run_keeps_first_engine (ms : list migration) (w : world)
    (x : string) (es ds : list string) :
  (∀ m, m ∈ ms → m ∈ catalog) →
  local w !! "engines" = Some (VArr (x :: es)) →
  local w !! "disabledEngines" = Some (VArr ds) →
  ∃ w' es',
    apply_upgrades ms w = (Normal tt, w')
    ∧ local w' !! "engines" = Some (VArr (x :: es')).
Proof.
  intros Hcat He Hd.
  destruct (apply_upgrades_arrays ms w (x :: es) ds Hcat He Hd)
    as (w' & Hrun & He' & _).
  pose proof (arrays_after_head ms x (x :: es) ds eq_refl) as Hhead.
  apply head_Some in Hhead as [es' Hes'].
  exists w', es'. split; [done|]. by rewrite He', Hes'.
Qed.

Lemma run_keeps_first_engine_witness :
  ∃ w' es',
    apply_upgrades catalog (state_of ["unsplash"; "bing"] []) = (Normal tt, w')
    ∧ local w' !! "engines" = Some (VArr ("unsplash" :: es')).
Proof.
  apply (run_keeps_first_engine catalog (state_of ["unsplash"; "bing"] [])
           "unsplash" ["bing"] []).
  - intros m Hm. exact Hm.
  - reflexivity.
  - reflexivity.
Defined.

(** X5.  The two revisions compose: on a stored list without hive, the
    catalog run in order leaves hive directly followed by copyseeker, both
    between two parts of the old list; right after the first unsplash when
    there is one, at the end of the list otherwise. *)
Theorem catalog_places_hive_then_copyseeker (w : world)
    (es ds : list string) :
  local w !! "engines" = Some (VArr es) →
  local w !! "disabledEngines" = Some (VArr ds) →
  "hive" ∉ es →
  ∃ w' es',
    apply_upgrades catalog w = (Normal tt, w')
    ∧ local w' !! "engines" = Some (VArr es')
    ∧ (∃ l1 l2, es = l1 ++ l2 ∧ es' = l1 ++ "hive" :: "copyseeker" :: l2)
    ∧ (∀ l1 l2, es = l1 ++ "unsplash" :: l2 → "unsplash" ∉ l1 →
         es' = l1 ++ "unsplash" :: "hive" :: "copyseeker" :: l2)
    ∧ ("unsplash" ∉ es → es' = es ++ ["hive"; "copyseeker"]).
Proof.
  intros He Hd Hhive.
  destruct (apply_upgrades_arrays catalog w es ds (λ m Hm, Hm) He Hd)
    as (w' & Hrun & He' & _).
  exists w', (arrays_after catalog es ds).1.
  split; [done|]. split; [done|].
  cbn [arrays_after catalog add_hive add_copyseeker anchor newEngine fst].
  assert (∀ l1 l2, es = l1 ++ l2 →
            engines_after "hive" "copyseeker" (l1 ++ "hive" :: l2)
            = l1 ++ "hive" :: "copyseeker" :: l2) as Hstep.
  { intros l1 l2 ->. apply engines_after_anchor.
    intros Hin. apply Hhive, elem_of_app. by left. }
  split; [|split].
  - destruct (engines_after_split "unsplash" "hive" es)
      as (l1 & l2 & Hes & ->).
    exists l1, l2. split; [done|]. by apply Hstep.
  - intros l1 l2 Hes Hl1. subst es.
    rewrite engines_after_anchor by done.
    replace (l1 ++ "unsplash" :: "hive" :: l2)
      with ((l1 ++ ["unsplash"]) ++ "hive" :: l2)
      by (by rewrite <- app_assoc).
    rewrite (Hstep (l1 ++ ["unsplash"]) l2) by (by rewrite <- app_assoc).
    by rewrite <- !app_assoc.
  - intros Hun.
    rewrite (engines_after_no_anchor "unsplash" "hive" es) by done.
    rewrite (Hstep es []) by (by rewrite app_nil_r).
    done.
Qed.

Lemma catalog_places_hive_then_copyseeker_witness :
  ∃ w' es',
    apply_upgrades catalog (state_of seven_engines []) = (Normal tt, w')
    ∧ local w' !! "engines" = Some (VArr es')
    ∧ (∃ l1 l2, seven_engines = l1 ++ l2
                ∧ es' = l1 ++ "hive" :: "copyseeker" :: l2)
    ∧ (∀ l1 l2, seven_engines = l1 ++ "unsplash" :: l2 → "unsplash" ∉ l1 →
         es' = l1 ++ "unsplash" :: "hive" :: "copyseeker" :: l2)
    ∧ ("unsplash" ∉ seven_engines →
       es' = seven_engines ++ ["hive"; "copyseeker"]).
Proof.
  apply (catalog_places_hive_then_copyseeker (state_of seven_engines [])
           seven_engines []).
  - reflexivity.
  - reflexivity.
  - unfold seven_engines. rewrite !not_elem_of_cons.
    repeat split; try discriminate. apply not_elem_of_nil.
Defined.

(** ** Strings: [includes] and [split] *)

Lemma prefix_empty (s : string) : String.prefix "" s = true.
Proof. by destruct s. Qed.

Lemma prefix_append (n q : string) : String.prefix n (n +:+ q) = true.
Proof.
  induction n as [|a n IH]; [apply prefix_empty|].
  change (String a n +:+ q) with (String a (n +:+ q)). simpl.
  destruct (ascii_dec a a); [exact IH|done].
Qed.

Lemma prefix_split (n s : string) :
  String.prefix n s = true → ∃ q, s = n +:+ q.
Proof.
  revert s. induction n as [|a n IH]; intros s Hp; [by exists s|].
  destruct s as [|b s]; [done|]. simpl in Hp.
  destruct (ascii_dec a b) as [->|]; [|done].
  destruct (IH s Hp) as [q ->]. by exists q.
Qed.

Lemma includes_unfold (s n : string) :
  includes s n
  = if String.prefix n s then true
    else match s with
         | EmptyString => false
         | String _ s' => includes s' n
         end.
Proof. by destruct s. Qed.

Lemma includes_append (p n q : string) : includes (p +:+ n +:+ q) n = true.
Proof.
  induction p as [|a p IH].
  - change ("" +:+ n +:+ q) with (n +:+ q).
    by rewrite includes_unfold, prefix_append.
  - change (String a p +:+ n +:+ q) with (String a (p +:+ n +:+ q)).
    rewrite includes_unfold. destruct (String.prefix _ _); [done|exact IH].
Qed.

Lemma includes_split (s n : string) :
  includes s n = true → ∃ p q, s = p +:+ n +:+ q.
Proof.
  induction s as [|a s IH]; rewrite includes_unfold;
    destruct (String.prefix n _) eqn:Hp; intros Hi; try done.
  - apply prefix_split in Hp as [q ->]. by exists "", q.
  - apply prefix_split in Hp as [q ->]. by exists "", q.
  - destruct (IH Hi) as (p & q & ->). by exists (String a p), q.
Qed.

Lemma includes_char (c d : ascii) (s : string) :
  includes (String c s) (String d "")
  = if decide (c = d) then true else includes s (String d "").
Proof.
  rewrite includes_unfold. simpl.
  destruct (ascii_dec d c) as [->|Hne].
  - rewrite prefix_empty. by destruct (decide (c = c)).
  - destruct (decide (c = d)) as [->|]; done.
Qed.

Lemma includes_char_empty (d : ascii) : includes "" (String d "") = false.
Proof. reflexivity. Qed.

Lemma split_on_nonempty (sep : ascii) (s : string) : split_on sep s ≠ [].
Proof.
  destruct s as [|c s]; simpl; [done|].
  destruct (decide (c = sep)); [done|]. by destruct (split_on sep s).
Qed.

Lemma split_on_no_sep (sep : ascii) (s : string) :
  includes s (String sep "") = false → split_on sep s = [s].
Proof.
  induction s as [|c s IH]; [done|].
  rewrite includes_char. simpl.
  destruct (decide (c = sep)); [done|]. intros Hs. by rewrite IH.
Qed.

Lemma split_on_first (sep : ascii) (base r : string) :
  includes base (String sep "") = false →
  split_on sep (base +:+ String sep r) = base :: split_on sep r.
Proof.
  induction base as [|c base IH].
  - intros _. change ("" +:+ String sep r) with (String sep r). simpl.
    by destruct (decide (sep = sep)).
  - rewrite includes_char.
    change (String c base +:+ String sep r)
      with (String c (base +:+ String sep r)). simpl.
    destruct (decide (c = sep)); [done|]. intros Hs. by rewrite IH.
Qed.

(** A string with a separator splits at the first one. *)
Lemma first_separator (sep : ascii) (s : string) :
  includes s (String sep "") = true →
  ∃ base r, s = base +:+ String sep r
            ∧ includes base (String sep "") = false.
Proof.
  induction s as [|c s IH]; [done|].
  rewrite includes_char. destruct (decide (c = sep)) as [->|Hne].
  - intros _. by exists "", s.
  - intros Hs. destruct (IH Hs) as (base & r & -> & Hb).
    exists (String c base), r. split; [done|].
    rewrite includes_char. by destruct (decide (c = sep)).
Qed.

(** Every string is a piece without separator, followed by nothing or by
    a separator and the rest. *)
Lemma first_piece (sep : ascii) (r : string) :
  ∃ q tail, r = q +:+ tail
            ∧ includes q (String sep "") = false
            ∧ (tail = "" ∨ ∃ t, tail = String sep t).
Proof.
  destruct (includes r (String sep "")) eqn:Hr.
  - destruct (first_separator sep r Hr) as (q & t & -> & Hq).
    exists q, (String sep t). split; [done|]. split; [done|]. right. by exists t.
  - exists r, "". split; [|by auto].
    clear Hr. induction r as [|c r IH]; [done|].
    change (String c r +:+ "") with (String c (r +:+ "")). by rewrite <- IH.
Qed.

Lemma split_on_head_piece (sep : ascii) (q tail : string) :
  includes q (String sep "") = false →
  tail = "" ∨ (∃ t, tail = String sep t) →
  head (split_on sep (q +:+ tail)) = Some q.
Proof.
  intros Hq [-> | [t ->]].
  - assert (q +:+ "" = q) as ->.
    { clear Hq. induction q as [|c q IH]; [done|].
      change (String c q +:+ "") with (String c (q +:+ "")). by rewrite IH. }
    by rewrite split_on_no_sep.
  - by rewrite split_on_first.
Qed.

(** The second piece of a split at its first separator. *)
Lemma split_on_second (sep : ascii) (base q tail : string) :
  includes base (String sep "") = false →
  includes q (String sep "") = false →
  tail = "" ∨ (∃ t, tail = String sep t) →
  split_on sep (base +:+ String sep (q +:+ tail)) !! 1%nat = Some q.
Proof.
  intros Hb Hq Ht. rewrite split_on_first by done. simpl.
  rewrite <- head_lookup. by apply split_on_head_piece.
Qed.

(** ** Problematic URLs *)

Lemma isProblematicUrl_query (base query tail : string) :
  includes base "?" = false →
  includes query "?" = false →
  tail = "" ∨ (∃ t, tail = "?" +:+ t) →
  Hive.isProblematicUrl (base +:+ "?" +:+ query +:+ tail)
  = Normal (includes (base +:+ "?" +:+ query +:+ tail) "fbcdn.net"
            || includes (base +:+ "?" +:+ query +:+ tail) "scontent"
            || includes (base +:+ "?" +:+ query +:+ tail) "instagram.com"
            || (50 <? Z.of_nat (String.length query))).
Proof.
  intros Hb Hq Ht. unfold Hive.isProblematicUrl.
  destruct (includes _ "fbcdn.net"); [done|].
  destruct (includes _ "scontent"); [done|].
  destruct (includes _ "instagram.com"); [done|].
  rewrite (includes_append base "?" (query +:+ tail)).
  change (base +:+ "?" +:+ query +:+ tail)
    with (base +:+ String "?" (query +:+ tail)).
  by rewrite split_on_second.
Qed.

Lemma split_on_second_defined (sep : ascii) (s : string) :
  includes s (String sep "") = true →
  ∃ piece, split_on sep s !! 1%nat = Some piece.
Proof.
  intros Hs. destruct (first_separator sep s Hs) as (base & r & -> & Hb).
  destruct (first_piece sep r) as (q & tail & -> & Hq & Ht).
  exists q. by apply split_on_second.
Qed.

Lemma isProblematicUrl_returns (url : string) :
  ∃ b, Hive.isProblematicUrl url = Normal b.
Proof.
  unfold Hive.isProblematicUrl.
  destruct (includes _ "fbcdn.net"); [by eexists|].
  destruct (includes _ "scontent"); [by eexists|].
  destruct (includes _ "instagram.com"); [by eexists|].
  destruct (includes url "?") eqn:Hq; [|by eexists].
  destruct (split_on_second_defined "?" url Hq) as [piece ->]. by eexists.
Qed.

Lemma hosts_are_problematic (p q host : string) :
  host ∈ ["fbcdn.net"; "scontent"; "instagram.com"] →
  Hive.isProblematicUrl (p +:+ host +:+ q) = Normal true.
Proof.
  rewrite !elem_of_cons, elem_of_nil. unfold Hive.isProblematicUrl.
  intros [-> | [-> | [-> | []]]].
  - by rewrite includes_append.
  - destruct (includes _ "fbcdn.net"); [done|]. by rewrite includes_append.
  - destruct (includes _ "fbcdn.net"); [done|].
    destruct (includes _ "scontent"); [done|]. by rewrite includes_append.
Qed.

(** X6.  [isProblematicUrl] never throws: whenever the URL includes a
    question mark, [url.split('?')[1]] is a string, so reading its length
    is safe, and the function returns a boolean for every URL. *)
Theorem isProblematicUrl_never_throws (url : string) :
  (includes url "?" = true →
   ∃ query, split_on "?" url !! 1%nat = Some query)
  ∧ ∃ b, Hive.isProblematicUrl url = Normal b.
Proof.
  split; [apply split_on_second_defined|apply isProblematicUrl_returns].
Qed.

Lemma isProblematicUrl_never_throws_witness :
  ∃ query, split_on "?" "https://example.org/?" !! 1%nat = Some query.
Proof.
  apply (proj1 (isProblematicUrl_never_throws "https://example.org/?")).
  reflexivity.
Defined.

(** X7.  A URL in which [fbcdn.net], [scontent] or [instagram.com] occurs
    anywhere is problematic. *)
Theorem isProblematicUrl_hosts (p q host : string) :
  host ∈ ["fbcdn.net"; "scontent"; "instagram.com"] →
  Hive.isProblematicUrl (p +:+ host +:+ q) = Normal true.
Proof. apply hosts_are_problematic. Qed.

Lemma isProblematicUrl_hosts_witness :
  Hive.isProblematicUrl ("https://" +:+ "scontent" +:+ ".example.org/a.jpg")
  = Normal true.
Proof.
  apply (isProblematicUrl_hosts "https://" ".example.org/a.jpg" "scontent").
  rewrite !elem_of_cons. auto.
Defined.

(** X8.  For a URL without those three names, what counts is the text
    between the first question mark and the second one (or the end): the
    URL is problematic exactly when that text is longer than 50
    characters, whatever follows a second question mark. *)
Theorem isProblematicUrl_query_length (base query tail : string) :
  includes base "?" = false →
  includes query "?" = false →
  tail = "" ∨ (∃ t, tail = "?" +:+ t) →
  includes (base +:+ "?" +:+ query +:+ tail) "fbcdn.net" = false →
  includes (base +:+ "?" +:+ query +:+ tail) "scontent" = false →
  includes (base +:+ "?" +:+ query +:+ tail) "instagram.com" = false →
  Hive.isProblematicUrl (base +:+ "?" +:+ query +:+ tail)
  = Normal (bool_decide (50 < String.length query)%nat).
Proof.
  intros Hb Hq Ht H1 H2 H3.
  rewrite isProblematicUrl_query by done. rewrite H1, H2, H3. simpl.
  f_equal. destruct (Z.ltb_spec 50 (Z.of_nat (String.length query)));
    symmetry; [apply bool_decide_eq_true|apply bool_decide_eq_false]; lia.
Qed.

(** A short first query and a long text after a second question mark. *)
Lemma isProblematicUrl_query_length_witness :
  Hive.isProblematicUrl
    ("https://example.org/i.png" +:+ "?" +:+ "w=200"
     +:+ "?token=0123456789012345678901234567890123456789012345678901234567")
  = Normal (bool_decide (50 < String.length "w=200")%nat).
Proof.
  apply (isProblematicUrl_query_length "https://example.org/i.png" "w=200"
           "?token=0123456789012345678901234567890123456789012345678901234567").
  - reflexivity.
  - reflexivity.
  - right. eexists. reflexivity.
  - reflexivity.
  - reflexivity.
  - reflexivity.
Defined.

(** X9.  The problematic URLs are exactly those in which one of the three
    names occurs, and those whose text between the first question mark and
    the next one (or the end) is longer than 50 characters. *)
Theorem isProblematicUrl_true_iff (url : string) :
  Hive.isProblematicUrl url = Normal true
  ↔ (∃ p q host, host ∈ ["fbcdn.net"; "scontent"; "instagram.com"]
                 ∧ url = p +:+ host +:+ q)
    ∨ (∃ base query tail,
         url = base +:+ "?" +:+ query +:+ tail
         ∧ includes base "?" = false
         ∧ includes query "?" = false
         ∧ (tail = "" ∨ ∃ t, tail = "?" +:+ t)
         ∧ (50 < String.length query)%nat).
Proof.
  split.
  - intros Hp.
    destruct (includes url "fbcdn.net") eqn:H1.
    { left. apply includes_split in H1 as (p & q & ->).
      exists p, q, "fbcdn.net". rewrite !elem_of_cons. auto. }
    destruct (includes url "scontent") eqn:H2.
    { left. apply includes_split in H2 as (p & q & ->).
      exists p, q, "scontent". rewrite !elem_of_cons. auto. }
    destruct (includes url "instagram.com") eqn:H3.
    { left. apply includes_split in H3 as (p & q & ->).
      exists p, q, "instagram.com". rewrite !elem_of_cons. auto. }
    right. destruct (includes url "?") eqn:Hq.
    + destruct (first_separator "?" url Hq) as (base & r & -> & Hb).
      destruct (first_piece "?" r) as (q & tail & -> & Hq' & Ht).
      exists base, q, tail. split; [done|]. split; [done|].
      split; [done|]. split; [done|].
      change (base +:+ String "?" (q +:+ tail))
        with (base +:+ "?" +:+ q +:+ tail) in *.
      rewrite isProblematicUrl_query, H1, H2, H3 in Hp by done.
      simpl in Hp. injection Hp as Hp. apply Z.ltb_lt in Hp. lia.
    + unfold Hive.isProblematicUrl in Hp.
      by rewrite H1, H2, H3, Hq in Hp.
  - intros [(p & q & host & Hh & ->) | (base & query & tail & -> & Hb & Hq
                                         & Ht & Hlen)].
    + by apply hosts_are_problematic.
    + rewrite isProblematicUrl_query by done.
      assert ((50 <? Z.of_nat (String.length query)) = true) as ->
        by (apply Z.ltb_lt; lia).
      by rewrite !orb_true_r.
Qed.

(** ** The search of the engine scripts *)

(** Case analysis on how the helpers settle and on the request, followed
    by the run of the script. *)
Ltac run_search :=
  unfold events_of, result_of, Hive.search, HiveJpeg.search,
    Copyseeker.search, mbind, task_bind, mret, task_ret, external, effect,
    try_catch, reject, of_completion; simpl.

Ltac search_cases env rq :=
  destruct env as [[[]|?] [?|?] [[|]|?] [[]|?] ?];
  destruct rq as [? [?|]];
  run_search;
  repeat match goal with
         | |- context [decide (?x = "image")] =>
             destruct (decide (x = "image")); simpl
         | |- context [String.eqb ?x ""] =>
             destruct (String.eqb_spec x ""); simpl
         | |- context [Hive.isProblematicUrl ?x] =>
             let b := fresh "b" in
             let Hb := fresh "Hb" in
             destruct (isProblematicUrl_returns x) as [b Hb];
             rewrite Hb; destruct b; simpl
         end.

(** Membership of an event in an explicit list of events. *)
Ltac event_in H :=
  repeat (apply elem_of_cons in H as [H|H]);
  try (by apply elem_of_nil in H); try discriminate H.

(** X10.  The hive script opens a URL only for a request that is not an
    image asset and has a non-empty image URL that is not problematic,
    after the receipt was sent; the URL it opens is the analyze page
    followed by the encoded image URL. *)
Theorem hive_search_opens_url (env : page) (rq : request) (u : string) :
  SetLocationHref u ∈ events_of (Hive.search env rq)
  ↔ sendReceipt env = Fulfilled tt
    ∧ search_assetType rq ≠ "image"
    ∧ ∃ url, image_imageUrl rq = Some url
             ∧ url ≠ ""
             ∧ Hive.isProblematicUrl url = Normal false
             ∧ u = "https://bizarrus.github.io/Hive/#analyze/"
                   +:+ encodeURIComponent env url.
Proof.
  search_cases env rq;
    (split;
     [intros Hin; event_in Hin;
      try (injection Hin as ->; split; [done|]; split; [done|];
           eexists; by repeat split)
     |intros (Hr & Ha & url' & Hurl & Hne & Hp & ->);
      simpl in *; try done; try congruence;
      try (injection Hurl as <-; try done; try congruence;
           rewrite !elem_of_cons; auto)]).
Qed.

(** X11.  The hive script goes the upload way, starting with
    [prepareImageForUpload] for engine hive, exactly when the receipt was
    sent and the request is an image asset or has a problematic image
    URL. *)
Theorem hive_search_uploads (env : page) (rq : request) :
  PrepareImageForUpload "hive" None ∈ events_of (Hive.search env rq)
  ↔ sendReceipt env = Fulfilled tt
    ∧ (search_assetType rq = "image"
       ∨ ∃ url, image_imageUrl rq = Some url
                ∧ Hive.isProblematicUrl url = Normal true).
Proof.
  search_cases env rq;
    (split;
     [intros Hin; event_in Hin;
      (split; [done|]; auto; right; eexists; by split)
     |intros (Hr & [Ha | (url' & Hurl & Hp)]);
      simpl in *; try done; try congruence;
      try (rewrite !elem_of_cons; by auto);
      try (injection Hurl as <-; subst;
           first [congruence | by vm_compute in Hp])]).
Qed.



(** X13.  In each of the three scripts the change event is the last thing
    done, directly after [setFileInputData] was given the prepared image
    on the file input that [findNode] found; it is never dispatched when
    one of these steps did not succeed. *)
Theorem change_event_after_file_set (search : page → request → task unit)
    (env : page) (rq : request) :
  search ∈ engine_scripts →
  DispatchEvent "change" true ∈ events_of (search env rq) →
  ∃ before image,
    events_of (search env rq)
    = before ++ [SetFileInputData fileInputSelector image;
                 DispatchEvent "change" true]
    ∧ prepareImageForUpload env = Fulfilled image
    ∧ findNode env = Fulfilled true
    ∧ setFileInputData env = Fulfilled tt
    ∧ result_of (search env rq) = Fulfilled tt.
Proof.
  unfold engine_scripts. rewrite !elem_of_cons, elem_of_nil.
  intros [-> | [-> | [-> | []]]];
    search_cases env rq;
    intros Hin; event_in Hin;
    (eexists [_; _; _], _; by repeat split).
Qed.

Lemma change_event_after_file_set_witness :
  ∃ before image,
    events_of (Copyseeker.search
                 (Page (Fulfilled tt) (Fulfilled "png") (Fulfilled true)
                    (Fulfilled tt) id)
                 (Request "image" None))
    = before ++ [SetFileInputData fileInputSelector image;
                 DispatchEvent "change" true]
    ∧ prepareImageForUpload
        (Page (Fulfilled tt) (Fulfilled "png") (Fulfilled true)
           (Fulfilled tt) id) = Fulfilled image
    ∧ findNode (Page (Fulfilled tt) (Fulfilled "png") (Fulfilled true)
                  (Fulfilled tt) id) = Fulfilled true
    ∧ setFileInputData (Page (Fulfilled tt) (Fulfilled "png") (Fulfilled true)
                          (Fulfilled tt) id) = Fulfilled tt
    ∧ result_of (Copyseeker.search
                   (Page (Fulfilled tt) (Fulfilled "png") (Fulfilled true)
                      (Fulfilled tt) id)
                   (Request "image" None)) = Fulfilled tt.
Proof.
  apply (change_event_after_file_set Copyseeker.search
           (Page (Fulfilled tt) (Fulfilled "png") (Fulfilled true)
              (Fulfilled tt) id)
           (Request "image" None)).
  - unfold engine_scripts. rewrite !elem_of_cons. auto.
  - unfold events_of. simpl. rewrite !elem_of_cons. auto 10.
Defined.

(** X14.  The copyseeker script opens a page only for a request that is
    not an image asset and has a non-empty image URL, after the receipt
    was sent, and the page is always the copyseeker home page: the image
    URL is not part of what it opens. *)
Theorem copyseeker_search_opens_home (env : page) (rq : request)
    (u : string) :
  SetLocationHref u ∈ events_of (Copyseeker.search env rq)
  ↔ sendReceipt env = Fulfilled tt
    ∧ search_assetType rq ≠ "image"
    ∧ (∃ url, image_imageUrl rq = Some url ∧ url ≠ "")
    ∧ u = "https://copyseeker.net/".
Proof.
  search_cases env rq;
    (split;
     [intros Hin; event_in Hin;
      try (injection Hin as ->; split; [done|]; split; [done|];
           split; [by eexists|done])
     |intros (Hr & Ha & (url' & Hurl & Hne) & ->);
      simpl in *; try done; try congruence;
      try (rewrite !elem_of_cons; by auto)]).
Qed.

(** X15.  The copyseeker script calls the upload helpers exactly for image
    assets, once the receipt was sent; an image URL, problematic or not,
    never makes it upload. *)
Theorem copyseeker_search_uploads (env : page) (rq : request) :
  PrepareImageForUpload "copyseeker" None
    ∈ events_of (Copyseeker.search env rq)
  ↔ sendReceipt env = Fulfilled tt ∧ search_assetType rq = "image".
Proof.
  search_cases env rq;
    (split;
     [intros Hin; event_in Hin; by split
     |intros (Hr & Ha); simpl in *; try done;
      rewrite !elem_of_cons; by auto]).
Qed.

(** X16.  The two versions of the hive script settle the same way and do
    the same things in the same order, except that the JPEG version asks
    [prepareImageForUpload] for a JPEG. *)
Theorem hive_versions_agree (env : page) (rq : request) :
  result_of (HiveJpeg.search env rq) = result_of (Hive.search env rq)
  ∧ events_of (HiveJpeg.search env rq)
    = asking_jpeg <$> events_of (Hive.search env rq).
Proof. search_cases env rq; by split. Qed.

(** ** Revisions on other storages *)

(** X17.  On a storage where [engines] is not an array but a string, the
    [upgrade] of a revision raises a TypeError and writes nothing.  Where
    [engines] is an array and [disabledEngines] a string, it raises in the
    same way when the count of enabled engines, taken with the length of
    the string, is at least 8, and otherwise it succeeds, storing the
    extended engine list and the string as it was. *)
Theorem upgrade_on_strings (m : migration) (w : world) :
  m ∈ catalog →
  (∀ s, local w !! "engines" = Some (VStr s) →
        upgrade m w = (Throw TypeError, w))
  ∧ (∀ es s,
       local w !! "engines" = Some (VArr es) →
       local w !! "disabledEngines" = Some (VStr s) →
       (Z.of_nat (length es) - Z.of_nat (String.length s) >= 8 →
        upgrade m w = (Throw TypeError, w))
       ∧ (Z.of_nat (length es) - Z.of_nat (String.length s) < 8 →
          ∃ w', upgrade m w = (Normal tt, w')
                ∧ local w' !! "engines"
                  = Some (VArr (engines_after (anchor m) (newEngine m) es))
                ∧ local w' !! "disabledEngines" = Some (VStr s))).
Proof.
  intros Hm. rewrite upgrade_is_template by done.
  unfold upgrade_template, mbind, js_bind, storage_local_get.
  rewrite stored_engines, stored_disabledEngines. split.
  - intros s ->. simpl.
    destruct (local w !! "disabledEngines") as [[t|ds]|]; simpl; [| |done];
      by destruct (decide _).
  - intros es s -> ->. simpl. split; intros Hcount.
    + destruct (decide (indexOf es (anchor m) ≠ -1)); simpl;
        destruct (decide (_ >= 8)); simpl; try done; lia.
    + unfold engines_after.
      destruct (decide (indexOf es (anchor m) ≠ -1)); simpl;
        (destruct (decide (_ >= 8)); simpl; [lia|]);
        eexists; (split; [reflexivity|]); simpl;
        split; apply lookup_union_Some_l; by simplify_map_eq.
Qed.

Lemma upgrade_on_strings_witness :
  upgrade add_hive
    {| local := {[ "engines" := VStr "google,bing" ]}; writes := [] |}
  = (Throw TypeError,
     {| local := {[ "engines" := VStr "google,bing" ]}; writes := [] |}).
Proof.
  apply (proj1 (upgrade_on_strings add_hive
                  {| local := {[ "engines" := VStr "google,bing" ]};
                     writes := [] |}
                  add_hive_in_catalog) "google,bing").
  reflexivity.
Defined.

(** ** The template of the guide *)

(** X18.  A revision written from the template of the guide, whatever its
    revision identifier, the engine it looks for and the engine it adds,
    succeeds on a storage holding both arrays with exactly one [set] call:
    it stores the new engine right after the first occurrence of the
    engine it looks for, or at the end when there is none, pushes the new
    engine to [disabledEngines] exactly when at least 8 engines were
    enabled, stores its revision as the version and changes no other
    entry. *)
Theorem template_on_arrays (rev a n : string) (w : world)
    (es ds : list string) :
  local w !! "engines" = Some (VArr es) →
  local w !! "disabledEngines" = Some (VArr ds) →
  ∃ w' es' changes,
    upgrade_template rev a n w = (Normal tt, w')
    ∧ writes w' = writes w ++ [changes]
    ∧ dom changes = written_keys
    ∧ local w' !! "engines" = Some (VArr es')
    ∧ (∀ l1 l2, es = l1 ++ a :: l2 → a ∉ l1 → es' = l1 ++ a :: n :: l2)
    ∧ (a ∉ es → es' = es ++ [n])
    ∧ local w' !! "disabledEngines"
      = Some (VArr (if decide (Z.of_nat (length es) - Z.of_nat (length ds)
                               >= 8)
                    then ds ++ [n] else ds))
    ∧ local w' !! "storageVersion" = Some (VStr rev)
    ∧ (∀ k, k ∉ written_keys → local w' !! k = local w !! k).
Proof.
  intros He Hd.
  exists {| local := changes_of rev a n es ds ∪ local w;
            writes := writes w ++ [changes_of rev a n es ds] |},
         (engines_after a n es), (changes_of rev a n es ds).
  split; [by apply upgrade_template_arrays|].
  split; [done|]. split; [apply changes_of_dom|]. simpl.
  split; [apply lookup_union_Some_l; unfold changes_of; by simplify_map_eq|].
  split; [intros l1 l2 -> Hl1; by apply engines_after_anchor|].
  split; [apply engines_after_no_anchor|].
  split; [apply lookup_union_Some_l; unfold changes_of; by simplify_map_eq|].
  split; [apply lookup_union_Some_l; unfold changes_of; by simplify_map_eq|].
  intros k Hk. apply lookup_union_r, not_elem_of_dom.
  by rewrite changes_of_dom.
Qed.

(** A revision for a new engine, placed after copyseeker. *)
Lemma template_on_arrays_witness :
  ∃ w' es' changes,
    upgrade_template "20260102030405_add_lenso" "copyseeker" "lenso"
      (state_of ["hive"; "copyseeker"; "bing"] []) = (Normal tt, w')
    ∧ writes w' = writes (state_of ["hive"; "copyseeker"; "bing"] [])
                  ++ [changes]
    ∧ dom changes = written_keys
    ∧ local w' !! "engines" = Some (VArr es')
    ∧ (∀ l1 l2, ["hive"; "copyseeker"; "bing"] = l1 ++ "copyseeker" :: l2 →
                "copyseeker" ∉ l1 → es' = l1 ++ "copyseeker" :: "lenso" :: l2)
    ∧ ("copyseeker" ∉ ["hive"; "copyseeker"; "bing"] →
       es' = ["hive"; "copyseeker"; "bing"] ++ ["lenso"])
    ∧ local w' !! "disabledEngines"
      = Some (VArr (if decide (Z.of_nat (length ["hive"; "copyseeker"; "bing"])
                               - Z.of_nat (length (@nil string)) >= 8)
                    then [] ++ ["lenso"] else []))
    ∧ local w' !! "storageVersion" = Some (VStr "20260102030405_add_lenso")
    ∧ (∀ k, k ∉ written_keys →
            local w' !! k
            = local (state_of ["hive"; "copyseeker"; "bing"] []) !! k).
Proof.
  apply (template_on_arrays "20260102030405_add_lenso" "copyseeker" "lenso"
           (state_of ["hive"; "copyseeker"; "bing"] [])
           ["hive"; "copyseeker"; "bing"] []).
  - reflexivity.
  - reflexivity.
Defined.

(** ** What a revision reads *)

(** X19.  A revision reads nothing but the stored [engines] and
    [disabledEngines]: on two storages that agree on these two entries it
    completes the same way and its [set] calls, if any, have the same
    argument. *)
Theorem upgrade_reads_two_keys (m : migration) (w1 w2 : world) :
  m ∈ catalog →
  local w1 !! "engines" = local w2 !! "engines" →
  local w1 !! "disabledEngines" = local w2 !! "disabledEngines" →
  (upgrade m w1).1 = (upgrade m w2).1
  ∧ ∃ new, writes (upgrade m w1).2 = writes w1 ++ new
           ∧ writes (upgrade m w2).2 = writes w2 ++ new.
Proof.
  intros Hm He Hd. rewrite upgrade_is_template by done.
  unfold upgrade_template, mbind, js_bind, storage_local_get; simpl.
  rewrite !stored_engines, !stored_disabledEngines, He, Hd.
  destruct (local w2 !! "engines") as [[s|es]|]; simpl;
    [| |split; [done|]; exists []; by rewrite !app_nil_r].
  - destruct (local w2 !! "disabledEngines") as [[t|ds]|]; simpl;
      try destruct (decide _); simpl;
      (split; [done|]); exists []; by rewrite !app_nil_r.
  - destruct (local w2 !! "disabledEngines") as [[t|ds]|]; simpl;
      try (destruct (decide (indexOf es (anchor m) ≠ -1)); simpl;
           destruct (decide (_ >= 8)); simpl);
      (split; [done|]);
      first [by eexists [_] | exists []; by rewrite !app_nil_r].
Qed.

(** Two storages with the same arrays, one of them with a stored
    version. *)
Lemma upgrade_reads_two_keys_witness :
  (upgrade add_copyseeker (state_of ["hive"] [])).1
  = (upgrade add_copyseeker
       (with_storageVersion (VStr "x") (state_of ["hive"] []))).1
  ∧ ∃ new,
      writes (upgrade add_copyseeker (state_of ["hive"] [])).2
      = writes (state_of ["hive"] []) ++ new
      ∧ writes (upgrade add_copyseeker
                  (with_storageVersion (VStr "x") (state_of ["hive"] []))).2
        = writes (with_storageVersion (VStr "x") (state_of ["hive"] []))
          ++ new.
Proof.
  apply (upgrade_reads_two_keys add_copyseeker (state_of ["hive"] [])
           (with_storageVersion (VStr "x") (state_of ["hive"] []))).
  - apply add_copyseeker_in_catalog.
  - reflexivity.
  - reflexivity.
Defined.
